(** * The workflow interpreter of maxun-core, embedded in Rocq

    The development follows [Interpreter.ts] function by function:
    - [Proto]: the property names that every object inherits;
    - [Guard]: the guard matcher ([applicable], [inclusive]) and the
      selection policy ([getMatchingActionId]);
    - [Extract]: the url part and the selector part of [getState], and the
      bookkeeping helpers [getSelectors] and [removeSpecialSelectors];
    - [Steps]: the action executor [carryOutSteps];
    - [Loop]: the main loop [runLoop], with the copy of the workflow it
      works on;
    - [Pagination]: [handlePagination] with its five strategies.

    The browser page is an external collaborator.  Every interaction with
    it is answered by an explicit environment (a script of observations),
    so that the control flow of the interpreter is a pure function of the
    workflow and of what the page answers.

    The embedding comes first, then the vocabulary in which the properties
    are stated ([GuardPaths], [Traces], [PaginationSpec], [Samples]), then
    the properties, component by component. *)

From Stdlib Require Import ZArith Lia Ascii String QArith.
From stdpp Require Import base option list strings gmap pretty.

Set Warnings "-register-all".

Open Scope string_scope.
Open Scope list_scope.
Open Scope nat_scope.

(* ===================================================================== *)
(** ** JavaScript values used by the interpreter *)
(* ===================================================================== *)

Module JS.

(** A [RegExp] object: its identity (strict equality [===] on objects is
    reference equality), the string it coerces to, and its [test] method.
    [test] is taken as a function of the tested string: regular
    expressions without the sticky or global flag. *)
Record RegExp := {
  re_ref : nat;
  re_string : string;
  re_test : string → bool
}.

(** [string | RegExp], the type of the leaves of a guard. *)
Inductive RegexableString :=
| RStr (s : string)
| RRegex (r : RegExp).

(** The value read from a property that may be absent:
    [None] is [undefined]. *)
Definition Value := option RegexableString.

(** Truthiness: [undefined] and the empty string are falsy, every other
    string and every object is truthy. *)
Definition truthy (v : Value) : bool :=
  match v with
  | None => false
  | Some (RStr s) => negb (String.eqb s "")
  | Some (RRegex _) => true
  end.

(** [a === b]. *)
Definition strict_eq (a b : Value) : bool :=
  match a, b with
  | None, None => true
  | Some (RStr s), Some (RStr t) => String.eqb s t
  | Some (RRegex r), Some (RRegex q) => Nat.eqb (re_ref r) (re_ref q)
  | _, _ => false
  end.

(** [String(v)] for a defined value. *)
Definition to_string (v : RegexableString) : string :=
  match v with
  | RStr s => s
  | RRegex r => re_string r
  end.

(** [Array.prototype.find]: the first element satisfying the callback,
    [undefined] when there is none. *)
Fixpoint find (f : string → bool) (l : list string) : option string :=
  match l with
  | [] => None
  | x :: l' => if f x then Some x else find f l'
  end.

(** Truthiness of a string or [undefined], as [!] and [!!] see it. *)
Definition truthy_str (o : option string) : bool :=
  match o with
  | None => false
  | Some s => negb (String.eqb s "")
  end.

(** [Array.prototype.includes] on strings. *)
Definition includes (l : list string) (x : string) : bool :=
  existsb (String.eqb x) l.

(** [String.prototype.includes]. *)
Fixpoint prefix_of (p s : string) : bool :=
  match p, s with
  | EmptyString, _ => true
  | String a p', String b s' => Ascii.eqb a b && prefix_of p' s'
  | String _ _, EmptyString => false
  end.

Fixpoint str_includes (s sub : string) : bool :=
  prefix_of sub s ||
  match s with
  | EmptyString => false
  | String _ s' => str_includes s' sub
  end.

(** [s.split(sep)] for a separator of one character. *)
Fixpoint split_aux (sep : ascii) (s cur : string) : list string :=
  match s with
  | EmptyString => [cur]
  | String c s' =>
      if Ascii.eqb c sep then cur :: split_aux sep s' ""
      else split_aux sep s' (cur +:+ String c "")
  end.

Definition split (sep : ascii) (s : string) : list string := split_aux sep s "".

(** [a.slice(0, e)] for an integer [e]: a negative [e] counts from the
    end. *)
Definition slice0 {A} (a : list A) (e : Z) : list A :=
  if Z.ltb e 0 then take (Z.to_nat (Z.of_nat (length a) + e)) a
  else take (Z.to_nat e) a.

End JS.

(* ===================================================================== *)
(** ** Inherited property names *)
(* ===================================================================== *)

Module Proto.

(** The names that an object literal inherits from [Object.prototype]: the
    operator [in] holds for them on every such object, and reading one
    gives a defined value.  [step.action in wawActions] holds for them too,
    although none is an action; the properties of bodies leave such names
    aside. *)
Definition inherited : list string :=
  ["constructor"; "hasOwnProperty"; "isPrototypeOf"; "propertyIsEnumerable";
   "toLocaleString"; "toString"; "valueOf"; "__proto__"; "__defineGetter__";
   "__defineSetter__"; "__lookupGetter__"; "__lookupSetter__"].

(** [String(m)] for the member [m] that an object inherits under [name]:
    [Object.prototype] itself under [__proto__], the function [Object]
    under [constructor], and otherwise the built-in method of that name. *)
Definition inherited_text (name : string) : string :=
  if String.eqb name "__proto__" then "[object Object]"
  else "function "
       +:+ (if String.eqb name "constructor" then "Object" else name)
       +:+ "() { [native code] }".

End Proto.

(* ===================================================================== *)
(** ** The guard matcher *)
(* ===================================================================== *)

Module Guard.
Import JS Proto.

(** Modelled from the spec: the constants [operators] and [meta] of
    [types/logic], which the source imports; the spec lists the
    combinators [$and], [$or], [$not] and the meta predicates [$before],
    [$after]. *)
Inductive Operator := op_and | op_or | op_not.
Inductive Meta := meta_before | meta_after.

(** Modelled from the spec: the type [Where] of [types/workflow].  A guard
    is a JavaScript object; it is kept as the list of its entries, in the
    order of [Object.entries].  An operator entry holds either an array of
    guards or a plain object; the source accepts both. *)
Inductive Clause :=
| c_url (v : RegexableString)
| c_cookies (cs : list (string * RegexableString))
| c_selectors (G : list string)
| c_op (o : Operator) (ws : list (list Clause))
| c_op_obj (o : Operator) (w : list Clause)
| c_meta (m : Meta) (v : RegexableString).

Abbreviation Where := (list Clause).

(** Modelled from the spec: [PageState] of [types/workflow].  [url] is
    what [getState] stores there: the live url (a string) or whatever the
    last pair's [where.url] reads. *)
Record PageState := {
  url : Value;
  cookies : gmap string string;
  selectors : list string
}.

(** The last lines of the callback of [inclusive], for a leaf [value]
    (a string or a [RegExp]) against [superset[key]]:
    [sup && (sup === value || (value is a RegExp && value.test(sup)) ||
             (value is another object && inclusive (value, sup)))].
    A string is not an object, so the third disjunct is false here. *)
Definition leaf_inclusive (value : RegexableString) (sup : Value) : bool :=
  truthy sup &&
  (strict_eq sup (Some value) ||
   match value, sup with
   | RRegex r, Some s => re_test r (to_string s)
   | _, _ => false
   end).

(** The last lines of the callback of [inclusive] when
    [parsedSuperset[key]] is a member inherited from [Object.prototype],
    whose string form is [text]: a truthy object that is not the expected
    value.  A string is not equal to it; a [RegExp] is tested against its
    string form. *)
Definition inherited_inclusive (value : RegexableString) (text : string) : bool :=
  match value with
  | RStr _ => false
  | RRegex r => re_test r text
  end.

(** One entry [name: value] of the guard's cookie object against the cookie
    object [sup] of the state, whose values are strings.  The callback
    stores [superset[key]] in [parsedSuperset[key]] and reads it back:
    - under [__proto__] the assignment creates no property and the reading
      gives [Object.prototype], whether or not there is such a cookie;
    - a cookie of that name gives its value;
    - without such a cookie, a name that every object inherits gives the
      inherited member;
    - any other name gives [undefined]. *)
Definition cookie_inclusive
    (sup : gmap string string) (name : string) (value : RegexableString) : bool :=
  if String.eqb name "__proto__" then inherited_inclusive value (inherited_text name)
  else
    match sup !! name with
    | Some s => leaf_inclusive value (Some (RStr s))
    | None =>
        if includes inherited name
        then inherited_inclusive value (inherited_text name)
        else leaf_inclusive value None
    end.

(** [inclusive (where.cookies, context.cookies)]: [every] over the entries
    of the guard's cookie object. *)
Definition cookies_inclusive
    (cs : list (string * RegexableString)) (sup : gmap string string) : bool :=
  forallb (λ '(name, v), cookie_inclusive sup name v) cs.

(** [inclusive ({selectors: G}, context)] where both are arrays: the two
    early returns of the callback. *)
Definition selectors_inclusive (G P : list string) : bool :=
  if Nat.eqb (length G) 0 && Nat.eqb (length P) 0 then true
  else existsb (λ selector, includes P selector) G.

(** The test function of the meta operators. *)
Definition testRegexString (value : RegexableString) (x : string) : bool :=
  match value with
  | RStr s => String.eqb x s
  | RRegex r => re_test r x
  end.

(** One entry of [Object.entries(where)] under [every].  The recursive
    calls of the source are [this.applicable(x, context)]: they do not
    pass [usedActions], which then takes its default value [[]]. *)
Fixpoint clause_applicable
    (c : Clause) (context : PageState) (usedActions : list string) : bool :=
  match c with
  | c_op o ws =>
      match o with
      | op_and => forallb (forallb (λ c', clause_applicable c' context [])) ws
      | op_or => existsb (forallb (λ c', clause_applicable c' context [])) ws
      | op_not =>
          (* the array itself is read as a guard: its entries have the
             keys "0", "1", ..., which the state does not have *)
          negb (forallb (λ _, false) ws)
      end
  | c_op_obj o w =>
      (* [Object.entries(value).map((a) => Object.fromEntries([a]))] *)
      match o with
      | op_and => forallb (λ c', clause_applicable c' context []) w
      | op_or => existsb (λ c', clause_applicable c' context []) w
      | op_not => negb (forallb (λ c', clause_applicable c' context []) w)
      end
  | c_meta m value =>
      match m with
      | meta_before => negb (truthy_str (find (testRegexString value) usedActions))
      | meta_after => negb (negb (truthy_str (find (testRegexString value) usedActions)))
      end
  | c_url v => leaf_inclusive v (url context)
  | c_cookies cs => cookies_inclusive cs (cookies context)
  | c_selectors G => selectors_inclusive G (selectors context)
  end.

Definition applicable
    (where_ : Where) (context : PageState) (usedActions : list string) : bool :=
  forallb (λ c, clause_applicable c context usedActions) where_.

(** Modelled from the spec: [What] and the where-what pair of
    [types/workflow]. [args] is absent, a single value or an array. *)
Inductive Args :=
| ArgsNone
| ArgsOne (v : string)
| ArgsList (l : list string).

Record What := { action : string; args : Args }.

Record Pair := { id : option string; where_ : Where; what : list What }.

Abbreviation Workflow := (list Pair).

(** The loop of [getMatchingActionId], from [n - 1] down to [0]. *)
Fixpoint scan (workflow : Workflow) (pageState : PageState)
    (usedActions : list string) (n : nat) : option nat :=
  match n with
  | 0 => None
  | S actionId =>
      match workflow !! actionId with
      | Some step =>
          if applicable (where_ step) pageState usedActions
          then Some actionId
          else scan workflow pageState usedActions actionId
      | None => None
      end
  end.

(** [None] stands for the [undefined] returned when the loop falls
    through. *)
Definition getMatchingActionId (workflow : Workflow) (pageState : PageState)
    (usedActions : list string) : option nat :=
  scan workflow pageState usedActions (length workflow).

End Guard.

(* ===================================================================== *)
(** ** The page-state extractor and the bookkeeping of selectors *)
(* ===================================================================== *)

Module Extract.
Import JS Guard.

(** What the live page answers during one call of [getState]: [page.url()],
    the cookie jar for that url, and which selectors
    [page.waitForSelector(selector, { state: 'attached' })] finds. *)
Record PageObs := {
  live_url : string;
  jar : list (string * string);
  attached : string → bool
}.

(** [where.url] and [where.selectors]: the value under that key, if any. *)
Fixpoint where_url (w : Where) : Value :=
  match w with
  | [] => None
  | c_url v :: _ => Some v
  | _ :: w' => where_url w'
  end.

Fixpoint where_selectors (w : Where) : option (list string) :=
  match w with
  | [] => None
  | c_selectors G :: _ => Some G
  | _ :: w' => where_selectors w'
  end.

(** The url computed by [getState]. *)
Definition state_url (live : string) (workflowCopy : Workflow) : Value :=
  let action := last workflowCopy in
  let url := Some (RStr live) in
  match action with
  | Some action =>
      if negb (strict_eq (where_url (where_ action)) url)
         && negb (strict_eq (where_url (where_ action)) (Some (RStr "about:blank")))
      then where_url (where_ action)
      else url
  | None => url
  end.

Definition getState (page : PageObs) (workflowCopy : Workflow)
    (selectors : list string) : PageState :=
  let presentSelectors :=
    concat ((λ selector, if attached page selector then [selector] else []) <$> selectors) in
  {| url := state_url (live_url page) workflowCopy;
     cookies := fold_left (λ p cookie, <[cookie.1 := cookie.2]> p) (jar page) ∅;
     selectors := presentSelectors |}.

(** [Array.from(new Set(l))]: the elements in the order of their first
    occurrence. *)
Definition set_add (acc : list string) (x : string) : list string :=
  if includes acc x then acc else acc ++ [x].

Definition array_from_set (l : list string) : list string :=
  fold_left set_add l [].

(** The loop of [getSelectors], from index [n - 1] down to [0]. *)
Fixpoint getSelectors_from (workflow : Workflow) (n : nat) : list string :=
  match n with
  | 0 => []
  | S index =>
      match where_selectors <$> (where_ <$> workflow !! index) with
      | Some (Some (x :: l)) => array_from_set (x :: l)
      | _ => getSelectors_from workflow index
      end
  end.

Definition getSelectors (workflow : Workflow) : list string :=
  getSelectors_from workflow (length workflow).

(** [removeSpecialSelectors]: a selector holding [>>] (hence also one
    holding [:>>]) is dropped from the [selectors] array of each guard. *)
Definition special (selector : string) : bool :=
  str_includes selector ":>>" || str_includes selector ">>".

Definition strip_clause (c : Clause) : Clause :=
  match c with
  | c_selectors G => c_selectors (List.filter (λ selector, negb (special selector)) G)
  | _ => c
  end.

Definition removeSpecialSelectors (workflow : Workflow) : Workflow :=
  (λ step, {| id := id step; where_ := strip_clause <$> where_ step;
              what := what step |}) <$> workflow.

End Extract.

(* ===================================================================== *)
(** ** The action executor *)
(* ===================================================================== *)

Module Steps.
Import JS Guard.

(** An argument as it reaches a method of the page. *)
Inductive Arg :=
| AVal (s : string)
| AUndefined
| AForce.  (* the object { force: true } *)

(** The [args] parameter of [executeAction]. *)
Inductive CallArgs :=
| XNone
| XOne (s : string)
| XList (l : list Arg).

(** What the executor does to the outside, in order. *)
Inductive Event :=
| EBuiltin (name : string) (params : list string)
| ECall (path : list string) (methodName : string) (args : list Arg)
| ESleep.

Inductive Outcome := Done | Threw.

(** The page as the executor of one body sees it: whether a dotted path
    leads to a defined object, and whether the [k]-th invocation made
    during this body resolves ([true]) or throws ([false]). *)
Record Driver := {
  defined : list string → bool;
  resolves : nat → bool
}.

Definition wawActions : list string :=
  ["screenshot"; "enqueueLinks"; "scrape"; "scrapeSchema"; "scrapeList";
   "scrapeListAuto"; "scroll"; "script"; "flag"].

Definition of_args (a : Args) : CallArgs :=
  match a with
  | ArgsNone => XNone
  | ArgsOne v => XOne v
  | ArgsList l => XList (AVal <$> l)
  end.

(** The arguments [executeAction] passes on. *)
Definition passed (methodName : string) (args : CallArgs) : list Arg :=
  if String.eqb methodName "press" || String.eqb methodName "type" then
    match args with
    | XList l => take 2 l
    | XOne s => [AVal s]
    | XNone => [AUndefined]
    end
  else
    match args with
    | XNone => []
    | XList l => l
    | XOne s => if String.eqb s "" then [] else [AVal s]
    end.

(** The parameters a built-in action receives. *)
Definition params (a : Args) : list string :=
  match a with
  | ArgsNone => []
  | ArgsList l => l
  | ArgsOne s => if String.eqb s "" then [] else [s]
  end.

(** [step.args[0]]; [None] when reading it throws ([args] is absent). *)
Definition first_arg (a : Args) : option Arg :=
  match a with
  | ArgsNone => None
  | ArgsOne EmptyString => Some AUndefined
  | ArgsOne (String c _) => Some (AVal (String c ""))
  | ArgsList [] => Some AUndefined
  | ArgsList (x :: _) => Some (AVal x)
  end.

(** [for (const level of ...) invokee = invokee[level]]: reading a property
    of an undefined object throws. [seen] is the path walked so far. *)
Fixpoint walk (page : Driver) (seen rest : list string) : bool :=
  match rest with
  | [] => true
  | level :: rest' =>
      match seen with
      | [] => true
      | _ => defined page seen
      end && walk page (seen ++ [level]) rest'
  end.

(** [carryOutSteps]: the events, how the body ended, and the number of
    invocations made so far. *)
Fixpoint carryOutSteps (page : Driver) (k : nat) (steps : list What)
    : list Event * Outcome * nat :=
  match steps with
  | [] => ([], Done, k)
  | step :: steps' =>
      let continue_with (evs : list Event) (k' : nat) :=
        let '(evs', out, k'') := carryOutSteps page k' steps' in
        (evs ++ evs', out, k'') in
      if includes wawActions (action step) then
        let ev := EBuiltin (action step) (params (args step)) in
        if resolves page k then continue_with [ev; ESleep] (S k)
        else ([ev], Threw, S k)
      else
        let levels := split "."%char (action step) in
        let methodName := List.last levels "" in
        let path := removelast levels in
        if negb (walk page [] path) then ([], Threw, k)
        else
          let call (a : CallArgs) := ECall path methodName (passed methodName a) in
          if String.eqb methodName "waitForLoadState" then
            if resolves page k then
              continue_with [call (of_args (args step)); ESleep] (S k)
            else if resolves page (S k) then
              continue_with [call (of_args (args step)); call (XOne "domcontentloaded");
                             ESleep] (S (S k))
            else ([call (of_args (args step)); call (XOne "domcontentloaded")],
                  Threw, S (S k))
          else if String.eqb methodName "click" then
            if resolves page k then
              continue_with [call (of_args (args step)); ESleep] (S k)
            else
              match first_arg (args step) with
              | None =>
                  (* reading [step.args[0]] throws inside the inner [try] *)
                  continue_with [call (of_args (args step))] (S k)
              | Some a =>
                  let forced := call (XList [a; AForce]) in
                  if resolves page (S k) then
                    continue_with [call (of_args (args step)); forced; ESleep] (S (S k))
                  else
                    (* [continue]: on to the next step, without the pause *)
                    continue_with [call (of_args (args step)); forced] (S (S k))
              end
          else
            if resolves page k then
              continue_with [call (of_args (args step)); ESleep] (S k)
            else ([call (of_args (args step))], Threw, S k)
  end.

End Steps.

(* ===================================================================== *)
(** ** The main loop *)
(* ===================================================================== *)

Module Loop.
Import JS Guard Extract Steps.

(** What the outside answers during one iteration of the loop. *)
Record Obs := {
  gone : bool;          (* [p.isClosed() || !this.stopper] *)
  load_fails : bool;    (* [p.waitForLoadState()] throws *)
  state_fails : bool;   (* [getState] throws *)
  page : PageObs;
  driver : Driver
}.

(** A pair of the workflow copy with the identity of its object:
    [action === lastAction] compares references. *)
Record Tracked := { ref : nat; pair : Pair }.

(** [JSON.parse(JSON.stringify(workflow))]: strings, arrays and plain
    objects come back as fresh objects with the same content, and a
    [RegExp] comes back as the empty object [{}].  What the matcher does
    with [{}] as a leaf of a guard:
    - under [url], or as the value expected of a cookie, the last disjunct
      of the callback of [inclusive] applies: [inclusive({}, sup)] is
      [every] over no entry, so the leaf accepts every truthy [sup] and
      nothing else;
    - under [$before] or [$after], [value.test] is not a function:
      [testRegexString] throws when [find] calls it, that is, as soon as
      [usedActions] has an element.
    [emptied r] stands for this object in the copy: an object coerced to
    ["[object Object]"] that accepts every string it is tested against
    (its identity plays no part, since as a leaf it accepts whatever truthy
    value it is compared with); [clause_throws] below tells when the second
    case arises. *)
Definition emptied (r : RegExp) : RegExp :=
  {| re_ref := re_ref r; re_string := "[object Object]"; re_test := λ _, true |}.

Definition copy_leaf (v : RegexableString) : RegexableString :=
  match v with
  | RStr s => RStr s
  | RRegex r => RRegex (emptied r)
  end.

Fixpoint copy_clause (c : Clause) : Clause :=
  match c with
  | c_url v => c_url (copy_leaf v)
  | c_cookies cs => c_cookies ((λ e, (e.1, copy_leaf e.2)) <$> cs)
  | c_selectors G => c_selectors G
  | c_op o ws => c_op o (List.map (List.map copy_clause) ws)
  | c_op_obj o w => c_op_obj o (List.map copy_clause w)
  | c_meta m v => c_meta m (copy_leaf v)
  end.

Definition deepCopy (workflow : Workflow) : Workflow :=
  (λ step, {| id := id step; where_ := copy_clause <$> where_ step;
              what := what step |}) <$> workflow.

(** Whether the callback of [every] throws on the entry [c] of a copied
    guard, called with [usedActions]: only a meta predicate whose operand
    was a [RegExp] can, and it does when [find] has an element to test.
    The entries below an operator are evaluated by
    [this.applicable(x, context)], against the empty history, and never
    throw. *)
Definition clause_throws (c : Clause) (usedActions : list string) : bool :=
  match c with
  | c_meta _ (RRegex _) => negb (Nat.eqb (length usedActions) 0)
  | _ => false
  end.

(** Whether [applicable] throws on a copied guard: [every] goes through the
    entries in order and stops at the first that fails. *)
Fixpoint applicable_throws
    (where_ : Where) (context : PageState) (usedActions : list string) : bool :=
  match where_ with
  | [] => false
  | c :: where' =>
      clause_throws c usedActions ||
      (clause_applicable c context usedActions &&
       applicable_throws where' context usedActions)
  end.

(** Whether [getMatchingActionId] throws on a copied workflow: the loop
    goes from index [n - 1] down, and stops at the first guard that
    holds. *)
Fixpoint scan_throws (workflow : Workflow) (pageState : PageState)
    (usedActions : list string) (n : nat) : bool :=
  match n with
  | 0 => false
  | S actionId =>
      match workflow !! actionId with
      | Some step =>
          applicable_throws (where_ step) pageState usedActions ||
          (negb (applicable (where_ step) pageState usedActions) &&
           scan_throws workflow pageState usedActions actionId)
      | None => false
      end
  end.

Definition getMatchingActionId_throws (workflow : Workflow) (pageState : PageState)
    (usedActions : list string) : bool :=
  scan_throws workflow pageState usedActions (length workflow).

(** The objects of the copy, each with its identity. *)
Definition track (workflow : Workflow) : list Tracked :=
  imap (λ i step, {| ref := i; pair := step |}) workflow.

Record State := {
  workflowCopy : list Tracked;
  usedActions : list string;
  selectors : list string;
  lastAction : option nat;
  repeatCount : nat
}.

(** One execution of a body. *)
Record Firing := {
  fired : nat;          (* the identity of the pair *)
  index : nat;          (* [actionId] *)
  events : list Event;
  outcome : Outcome
}.

(** How the loop ended.  [MatcherThrew]: the call of [getMatchingActionId],
    which no [try] encloses, threw, and [runLoop] ends with that
    exception.  [Pending] is not an exit of the source: the observations
    are used up while the loop, in the state given, would go on. *)
Inductive Exit :=
| Stopped | LoadFailed | PageGone | MatcherThrew | NoMatch | RepeatLimit
| Pending (st : State).

(** [this.options.maxRepeats && repeatCount > this.options.maxRepeats] *)
Definition over_limit (maxRepeats : Z) (repeatCount : nat) : bool :=
  negb (Z.eqb maxRepeats 0) && Z.ltb maxRepeats (Z.of_nat repeatCount).

(** The [while (true)] of [runLoop]; one observation is used per
    iteration.  The pairs of the state are those of the copy made by
    [deepCopy], so every [RegExp] leaf among them is an emptied one, and
    the matcher is asked first whether it throws. *)
Fixpoint iterate (maxRepeats : Z) (script : list Obs) (st : State)
    : list Firing * Exit :=
  match script with
  | [] => ([], Pending st)
  | o :: script' =>
      if gone o then ([], Stopped)
      else if load_fails o then ([], LoadFailed)
      else if state_fails o then ([], PageGone)
      else
        let pairs := pair <$> workflowCopy st in
        let pageState := getState (page o) pairs (selectors st) in
        if getMatchingActionId_throws pairs pageState (usedActions st)
        then ([], MatcherThrew)
        else
        match getMatchingActionId pairs pageState (usedActions st) with
        | None => ([], NoMatch)
        | Some actionId =>
            match workflowCopy st !! actionId with
            | None => ([], NoMatch)
            | Some action =>
                let repeatCount :=
                  if bool_decide (lastAction st = Some (ref action))
                  then S (repeatCount st) else 0 in
                if over_limit maxRepeats repeatCount then ([], RepeatLimit)
                else
                  let '(evs, out, _) := carryOutSteps (driver o) 0 (what (pair action)) in
                  let st' :=
                    match out with
                    | Done =>
                        let copy := delete actionId (workflowCopy st) in
                        {| workflowCopy := copy;
                           usedActions :=
                             usedActions st ++ [default "undefined" (id (pair action))];
                           selectors :=
                             fold_left set_add (getSelectors (pair <$> copy)) [];
                           lastAction := Some (ref action);
                           repeatCount := repeatCount |}
                    | Threw =>
                        {| workflowCopy := workflowCopy st;
                           usedActions := usedActions st;
                           selectors := [];
                           lastAction := Some (ref action);
                           repeatCount := repeatCount |}
                    end in
                  let '(fs, e) := iterate maxRepeats script' st' in
                  ({| fired := ref action; index := actionId; events := evs;
                      outcome := out |} :: fs, e)
            end
        end
  end.

Definition runLoop (maxRepeats : Z) (workflow : Workflow) (script : list Obs)
    : list Firing * Exit :=
  let workflowCopy := deepCopy workflow in
  iterate maxRepeats script
    {| workflowCopy := track (removeSpecialSelectors workflowCopy);
       usedActions := []; selectors := [];
       lastAction := None; repeatCount := 0 |}.

End Loop.

(* ===================================================================== *)
(** ** The pagination engine *)
(* ===================================================================== *)

Module Pagination.
Import JS.

Inductive PType := scrollDown | scrollUp | clickNext | clickLoadMore | other.

(** [config]: [limit], [pagination.type] and [pagination.selector]. *)
Record Config := {
  limit : option Z;
  ptype : PType;
  selector : string
}.

Definition MAX_RETRIES : nat := 3.
Definition MAX_NO_NEW_ITEMS : nat := 2.

Section WithItems.

(** The records scraped from the page and [JSON.stringify] on them. *)
Context {item : Type} (stringify : item → string).

(** What the page answers to one interaction. *)
Inductive Resp :=
| RThrow                  (* the awaited call rejects *)
| ROk                     (* it resolves, the value is not used *)
| RNum (n : Z)            (* a scroll extent *)
| RUrl (s : string)       (* [page.url()] *)
| RItems (l : list item)  (* [window.scrapeList(cfg)] *)
| RSig (sig_url : string) (itemCount : Z) (firstItems : string).

(** The variables of [handlePagination] that its closures share. *)
Record Vars := {
  allResults : list item;
  previousHeight : Z;
  scrapedItems : gset string;
  visitedUrls : gset string;
  availableSelectors : list string
}.

(** A computation either continues with a value, throws, executes a
    [return] of [handlePagination], or waits for an answer the script does
    not hold.  The variables survive a throw; the script left over records
    which interactions were not made. *)
Inductive Res (A : Type) :=
| Val (a : A) (v : Vars) (sc : list Resp)
| Exc (v : Vars) (sc : list Resp)
| Return (r : list item) (sc : list Resp)
| Stuck.
Arguments Val {A}.
Arguments Exc {A}.
Arguments Return {A}.
Arguments Stuck {A}.

Definition M (A : Type) : Type := Vars → list Resp → Res A.

Definition ret {A} (a : A) : M A := λ v sc, Val a v sc.

Definition bind {A B} (c : M A) (k : A → M B) : M B :=
  λ v sc,
    match c v sc with
    | Val a v' sc' => k a v' sc'
    | Exc v' sc' => Exc v' sc'
    | Return r sc' => Return r sc'
    | Stuck => Stuck
    end.

Notation "'let!' x ':=' c 'in' k" := (bind c (λ x, k))
  (at level 10, x name, c at level 100, k at level 200).
Notation "c >> k" := (bind c (λ _, k))
  (at level 90, right associativity).

(** [try { c } catch { h }] *)
Definition try_catch {A} (c h : M A) : M A :=
  λ v sc,
    match c v sc with
    | Exc v' sc' => h v' sc'
    | r => r
    end.

Definition throw {A} : M A := λ v sc, Exc v sc.
Definition stuck {A} : M A := λ _ _, Stuck.
Definition get : M Vars := λ v sc, Val v v sc.
Definition put (v : Vars) : M unit := λ _ sc, Val tt v sc.

Definition return_ {A} (r : list item) : M A := λ _ sc, Return r sc.

(** [return allResults] *)
Definition return_allResults {A} : M A := λ v sc, Return (allResults v) sc.

(** An awaited interaction whose value is not used. *)
Definition await : M unit :=
  λ v sc,
    match sc with
    | [] => Stuck
    | RThrow :: sc' => Exc v sc'
    | _ :: sc' => Val tt v sc'
    end.

Definition await_num : M Z :=
  λ v sc,
    match sc with
    | RThrow :: sc' => Exc v sc'
    | RNum n :: sc' => Val n v sc'
    | _ => Stuck
    end.

Definition await_items : M (list item) :=
  λ v sc,
    match sc with
    | RThrow :: sc' => Exc v sc'
    | RItems l :: sc' => Val l v sc'
    | _ => Stuck
    end.

Definition await_sig : M (string * Z * string) :=
  λ v sc,
    match sc with
    | RThrow :: sc' => Exc v sc'
    | RSig u n f :: sc' => Val (u, n, f) v sc'
    | _ => Stuck
    end.

(** [page.url()] is synchronous and does not throw. *)
Definition page_url : M string :=
  λ v sc,
    match sc with
    | RUrl s :: sc' => Val s v sc'
    | _ => Stuck
    end.

(** The [filter] of [scrapeCurrentPage]: an item is kept when its key is
    new, and its key is then recorded. *)
Fixpoint fresh (results : list item) (seen : gset string)
    : list item * gset string :=
  match results with
  | [] => ([], seen)
  | x :: results' =>
      let uniqueKey := stringify x in
      if bool_decide (uniqueKey ∈ seen) then fresh results' seen
      else
        let '(l, seen') := fresh results' ({[uniqueKey]} ∪ seen) in
        (x :: l, seen')
  end.

Definition scrapeCurrentPage : M unit :=
  let! results := await_items in
  let! v := get in
  let '(newResults, seen) := fresh results (scrapedItems v) in
  put {| allResults := allResults v ++ newResults;
         previousHeight := previousHeight v;
         scrapedItems := seen;
         visitedUrls := visitedUrls v;
         availableSelectors := availableSelectors v |}.

Definition limit_reached (limit : option Z) (n : nat) : bool :=
  match limit with
  | None => false
  | Some l => negb (Z.eqb l 0) && Z.leb l (Z.of_nat n)
  end.

Definition checkLimit (config : Config) : M bool :=
  let! v := get in
  if limit_reached (limit config) (length (allResults v)) then
    put {| allResults := slice0 (allResults v) (default 0%Z (limit config));
           previousHeight := previousHeight v;
           scrapedItems := scrapedItems v;
           visitedUrls := visitedUrls v;
           availableSelectors := availableSelectors v |} >>
    ret true
  else ret false.

Definition set_previousHeight (h : Z) : M unit :=
  let! v := get in
  put {| allResults := allResults v; previousHeight := h;
         scrapedItems := scrapedItems v; visitedUrls := visitedUrls v;
         availableSelectors := availableSelectors v |}.

Definition set_availableSelectors (l : list string) : M unit :=
  let! v := get in
  put {| allResults := allResults v; previousHeight := previousHeight v;
         scrapedItems := scrapedItems v; visitedUrls := visitedUrls v;
         availableSelectors := l |}.

Definition add_visited (u : string) : M unit :=
  let! v := get in
  put {| allResults := allResults v; previousHeight := previousHeight v;
         scrapedItems := scrapedItems v; visitedUrls := {[u]} ∪ visitedUrls v;
         availableSelectors := availableSelectors v |}.

(** The [while] of [findWorkingButton] for one selector; [n] attempts are
    left.  The pause between two attempts is awaited inside the [catch]
    block, so a throw there leaves the function. *)
Fixpoint attempt_selector (n : nat) : M bool :=
  match n with
  | 0 => ret false
  | S n' =>
      let! found := try_catch (await >> ret true) (ret false) in
      if found then ret true
      else
        match n' with
        | 0 => ret false
        | S _ => await >> attempt_selector n'
        end
  end.

(** [findWorkingButton]: the working selector, if any, and the selectors
    that stay available. *)
Fixpoint findWorkingButton_from (selectors updatedSelectors : list string)
    : M (option string * list string) :=
  match selectors with
  | [] => ret (None, updatedSelectors)
  | selector :: selectors' =>
      let! found := attempt_selector MAX_RETRIES in
      if found then ret (Some selector, updatedSelectors)
      else
        findWorkingButton_from selectors'
          (List.filter (λ s, negb (String.eqb s selector)) updatedSelectors)
  end.

Definition findWorkingButton (selectors : list string)
    : M (option string * list string) :=
  findWorkingButton_from selectors selectors.

(** [!button || !workingSelector] fails only for a selector that was found
    and is not the empty string. *)
Definition working (workingSelector : option string) : option string :=
  match workingSelector with
  | Some s => if String.eqb s "" then None else Some s
  | None => None
  end.

(** [retryOperation]; [n] is [MAX_RETRIES - retryCount]. *)
Fixpoint retryOperation (operation : M bool) (n : nat) : M bool :=
  try_catch operation
    match n with
    | 0 => ret false
    | S n' => await >> retryOperation operation n'
    end.

(** The operation retried when no selector of [clickNext] works. *)
Definition forward_operation : M bool :=
  try_catch
    (await >>
     let! newUrl := page_url in
     let! v := get in
     ret (negb (bool_decide (newUrl ∈ visitedUrls v))))
    (ret false).

(** One pass of the retry loop of [clickNext]: whether the click advanced
    the page. *)
Definition next_attempt (currentUrl : string) (beforeSignature : string * Z * string)
    : M bool :=
  try_catch
    (let! paginationSuccess :=
       try_catch (await >> ret true)
         (try_catch (await >> ret true)
            (try_catch (await >> await) (await >> await) >> ret false)) in
     try_catch await (ret tt) >>
     if paginationSuccess then ret true
     else
       let! newUrl := page_url in
       let! afterSignature := await_sig in
       if negb (String.eqb newUrl currentUrl) then
         add_visited newUrl >> ret true
       else if negb (String.eqb afterSignature.2 beforeSignature.2) then ret true
       else if negb (Z.eqb afterSignature.1.2 beforeSignature.1.2) then ret true
       else ret false)
    (ret false).

Fixpoint next_retries (currentUrl : string) (beforeSignature : string * Z * string)
    (n : nat) : M bool :=
  match n with
  | 0 => ret false
  | S n' =>
      let! paginationSuccess := next_attempt currentUrl beforeSignature in
      if paginationSuccess then ret true
      else
        match n' with
        | 0 => ret false
        | S _ => await >> next_retries currentUrl beforeSignature n'
        end
  end.

(** One pass of the click loop of [clickLoadMore].  [clickSuccess] is set
    before the pause of one second; when that pause throws, the [catch]
    block runs with [clickSuccess] already [true]. *)
Fixpoint loadMore_click (n : nat) : M bool :=
  match n with
  | 0 => ret false
  | S n' =>
      let! clicked := try_catch (await >> ret true)
                        (try_catch (await >> ret true) (ret false)) in
      if clicked then
        try_catch await
          match n' with
          | 0 => ret tt
          | S _ => await
          end >>
        ret true
      else
        match n' with
        | 0 => ret false
        | S _ => await >> loadMore_click n'
        end
  end.

(** The first half of the body of the inner [while (true)] of
    [clickLoadMore]: find the button and click it.  It continues only after
    a successful click. *)
Definition loadMore_find_and_click : M unit :=
  let! v := get in
  let! found := findWorkingButton (availableSelectors v) in
  set_availableSelectors found.2 >>
  match working found.1 with
  | None => return_allResults
  | Some _ =>
      let! clickSuccess := loadMore_click MAX_RETRIES in
      if negb clickSuccess then return_allResults else ret tt
  end.

(** The second half: wait, scroll, read the scroll height, scrape, and
    decide.  It continues with the new values of [previousResultCount] and
    [noNewItemsCounter] when the loop goes round again. *)
Definition loadMore_after_click (config : Config)
    (previousResultCount noNewItemsCounter : nat) : M (nat * nat) :=
  await >> await >> await >>
  let! currentHeight := await_num in
  let! v := get in
  let heightChanged := negb (Z.eqb currentHeight (previousHeight v)) in
  set_previousHeight currentHeight >>
  scrapeCurrentPage >>
  let! v := get in
  let currentResultCount := length (allResults v) in
  let newItemsAdded := Nat.ltb previousResultCount currentResultCount in
  if negb newItemsAdded && Nat.leb MAX_NO_NEW_ITEMS (S noNewItemsCounter)
  then return_allResults
  else
    let! reached := checkLimit config in
    if reached then return_allResults
    else if negb heightChanged then return_allResults
    else if newItemsAdded then ret (currentResultCount, 0)
    else ret (previousResultCount, S noNewItemsCounter).

(** The inner [while (true)] of [clickLoadMore]. *)
Fixpoint loadMore_loop (config : Config) (fuel : nat)
    (previousResultCount noNewItemsCounter : nat) : M (list item) :=
  match fuel with
  | 0 => stuck
  | S fuel' =>
      loadMore_find_and_click >>
      let! next := loadMore_after_click config previousResultCount noNewItemsCounter in
      loadMore_loop config fuel' next.1 next.2
  end.

(** One pass of the [switch]; [true] stands for [break]. *)
Definition strategy (config : Config) (fuel : nat) : M bool :=
  match ptype config with
  | scrollDown =>
      await >> await >>
      let! currentHeight := await_num in
      let! v := get in
      if Z.eqb currentHeight (previousHeight v) then
        let! finalResults := await_items in
        let! v := get in
        return_ (allResults v ++ finalResults)
      else set_previousHeight currentHeight >> ret true
  | scrollUp =>
      await >> await >>
      let! currentTopHeight := await_num in
      if Z.eqb currentTopHeight 0 then
        let! finalResults := await_items in
        let! v := get in
        return_ (allResults v ++ finalResults)
      else set_previousHeight currentTopHeight >> ret true
  | clickNext =>
      let! currentUrl := page_url in
      add_visited currentUrl >>
      scrapeCurrentPage >>
      let! reached := checkLimit config in
      if reached then return_allResults
      else
        let! v := get in
        let! found := findWorkingButton (availableSelectors v) in
        set_availableSelectors found.2 >>
        match working found.1 with
        | None =>
            let! success := retryOperation forward_operation MAX_RETRIES in
            if negb success then return_allResults else ret true
        | Some _ =>
            let! beforeSignature := await_sig in
            let! paginationSuccess := next_retries currentUrl beforeSignature MAX_RETRIES in
            if negb paginationSuccess then return_allResults else ret true
        end
  | clickLoadMore =>
      scrapeCurrentPage >>
      let! reached := checkLimit config in
      if reached then return_allResults
      else
        let! v := get in
        loadMore_loop config fuel (length (allResults v)) 0 >>
        ret true
  | other =>
      scrapeCurrentPage >> return_allResults
  end.

(** The outer [while (true)]. *)
Fixpoint paginate (config : Config) (fuel : nat) : M (list item) :=
  match fuel with
  | 0 => stuck
  | S fuel' =>
      strategy config fuel' >>
      let! reached := checkLimit config in
      if reached then return_allResults else paginate config fuel'
  end.

(** [handlePagination]: the list handed to the serializable callback and
    the answers of the page that were not asked for; [None] when the page
    answers run out before the function returns. *)
Definition handlePagination (config : Config) (fuel : nat) (script : list Resp)
    : option (list item * list Resp) :=
  let v0 := {| allResults := []; previousHeight := 0; scrapedItems := ∅;
               visitedUrls := ∅;
               availableSelectors := split ","%char (selector config) |} in
  match paginate config fuel v0 script with
  | Val r _ sc => Some (r, sc)
  | Return r sc => Some (r, sc)
  | Exc v sc => Some (allResults v, sc)
  | Stuck => None
  end.

End WithItems.

Arguments Val {item A}.
Arguments Exc {item A}.
Arguments Return {item A}.
Arguments Stuck {item A}.
Arguments RThrow {item}.
Arguments ROk {item}.
Arguments RNum {item}.
Arguments RUrl {item}.
Arguments RSig {item}.

End Pagination.

(* ===================================================================== *)
(** ** The other selector filter *)
(* ===================================================================== *)

Module Shadow.
Import JS Guard.

(** [removeShadowSelectors]: a selector holding [>>] is dropped from the
    [selectors] array of each guard. *)
Definition strip_shadow_clause (c : Clause) : Clause :=
  match c with
  | c_selectors G =>
      c_selectors (List.filter (λ selector, negb (str_includes selector ">>")) G)
  | _ => c
  end.

Definition removeShadowSelectors (workflow : Workflow) : Workflow :=
  (λ step, {| id := id step; where_ := strip_shadow_clause <$> where_ step;
              what := what step |}) <$> workflow.

End Shadow.

(* ===================================================================== *)
(** ** The cumulative buffer of [scrapeSchema] *)
(* ===================================================================== *)

Module Schema.
Import JS Proto.

(** A scraped record as the list of its entries, in the order of
    [Object.entries]; the value [None] is [undefined], any other value is
    kept as a string. *)
Abbreviation Record_ := (list (string * option string)).

(** [this.cumulativeResults]: every object in it is pushed by
    [scrapeSchema] and has exactly one key, so it is kept as that key and
    its value. *)
Abbreviation Buffer := (list (string * option string)).

(** [key in item && item[key] !== undefined] for the one-key object
    [item]: its own key counts when its value is defined, and a name that
    every object inherits counts always. *)
Definition has_defined (item : string * option string) (key : string) : bool :=
  if String.eqb item.1 key then bool_decide (is_Some item.2)
  else includes inherited key.

(** [this.cumulativeResults.some((item) => key in item && item[key] !== undefined)] *)
Definition keyExists (cumulativeResults : Buffer) (key : string) : bool :=
  existsb (λ item, has_defined item key) cumulativeResults.

(** The body of the inner [forEach]. *)
Definition absorb_entry (cumulativeResults : Buffer) (entry : string * option string)
    : Buffer :=
  if keyExists cumulativeResults entry.1 then cumulativeResults
  else cumulativeResults ++ [entry].

(** [newResults.forEach((result) => Object.entries(result).forEach(...))] *)
Definition absorb (cumulativeResults : Buffer) (newResults : list Record_) : Buffer :=
  fold_left (λ cum result, fold_left absorb_entry result cum) newResults
    cumulativeResults.

(** [acc[key] = value] on the accumulator of the [reduce]: assigning to
    [__proto__] creates no property. *)
Definition assign (acc : gmap string string) (key value : string)
    : gmap string string :=
  if String.eqb key "__proto__" then acc else <[key := value]> acc.

(** The [reduce] that builds the single row of [mergedResult]. *)
Definition merged (cumulativeResults : Buffer) : gmap string string :=
  fold_left (λ acc curr, match curr.2 with
                         | Some value => assign acc curr.1 value
                         | None => acc
                         end) cumulativeResults ∅.

(** What [window.scrapeSchema] gave: one record or an array of records. *)
Inductive ScrapeResult :=
| One (result : Record_)
| Many (results : list Record_).

Definition newResults (scrapeResult : ScrapeResult) : list Record_ :=
  match scrapeResult with
  | One result => [result]
  | Many results => results
  end.

(** The [scrapeSchema] action: the new buffer and the row handed to the
    serializable callback. *)
Definition scrapeSchema (cumulativeResults : Buffer) (scrapeResult : ScrapeResult)
    : Buffer * gmap string string :=
  let cum := absorb cumulativeResults (newResults scrapeResult) in
  (cum, merged cum).

End Schema.

(* ===================================================================== *)
(** ** The server side: preparing a workflow and collecting its outputs *)
(* ===================================================================== *)

Module Server.

(** JSON values, with rationals for numbers and finite maps for objects. *)
Inductive Json :=
| JNull
| JBool (b : bool)
| JNum (n : Q)
| JStr (s : string)
| JArr (l : list Json)
| JObj (fields : gmap string Json).

(** An action of a workflow file: [args] may be absent. *)
Record Action := { action : string; args : option Json }.

Record Pair := { id : option string; where_ : Json; what : list Action }.

Section WithDecrypt.

(** [decrypt] of [utils/auth], which the source imports; [None] stands for
    a thrown error. *)
Variable decrypt : string → option string.

(** The limit validation of a [scrapeList] action. *)
Definition clamp_limit (checkLimit : bool) (a : Action) : Action :=
  if String.eqb (action a) "scrapeList" && checkLimit then
    match args a with
    | Some (JArr (JObj scrapeConfig :: rest)) =>
        match scrapeConfig !! "limit" with
        | Some (JNum limit) =>
            if negb (Qle_bool limit (inject_Z 5))
            then {| action := action a;
                    args := Some (JArr (JObj (<["limit" := JNum (inject_Z 5)]> scrapeConfig)
                                        :: rest)) |}
            else a
        | _ => a
        end
    | _ => a
    end
  else a.

(** The decryption of the value of a [type] or [press] action. *)
Definition decrypt_input (a : Action) : Action :=
  if String.eqb (action a) "type" || String.eqb (action a) "press" then
    match args a with
    | Some (JArr l) =>
        if Nat.ltb 1 (length l) then
          match l !! 1 with
          | Some (JStr encryptedValue) =>
              {| action := action a;
                 args := Some (JArr (<[1 := JStr (default "" (decrypt encryptedValue))]> l)) |}
          | _ => {| action := action a; args := Some (JArr (<[1 := JStr ""]> l)) |}
          end
        else a
    | _ => a
    end
  else a.

(** [processWorkflow]; the JSON round trip that opens it gives a copy with
    the same content. *)
Definition processWorkflow (workflow : list Pair) (checkLimit : bool) : list Pair :=
  (λ pair, {| id := id pair; where_ := where_ pair;
              what := (λ a, decrypt_input (clamp_limit checkLimit a)) <$> what pair |})
    <$> workflow.

End WithDecrypt.

(** The key of the [index]-th output. *)
Definition item_key (index : nat) : string := "item-" +:+ pretty index.

(** [l.reduce((reducedObject, item, index) =>
      ({ [`item-${index}`]: item, ...reducedObject }), {})],
    from the index and the object reached so far. *)
Fixpoint reduce_items {A} (l : list A) (index : nat) (reducedObject : gmap string A)
    : gmap string A :=
  match l with
  | [] => reducedObject
  | item :: l' =>
      reduce_items l' (S index) (reducedObject ∪ {[item_key index := item]})
  end.

(** [lastArray] of [InterpretRecording]. *)
Definition lastArray {A} (serializableData : list A) : list A :=
  if Nat.ltb 1 (length serializableData)
  then match last serializableData with
       | Some item => [item]
       | None => []
       end
  else serializableData.

Definition serializableOutput {A} (serializableData : list A) : gmap string A :=
  reduce_items (lastArray serializableData) 0 ∅.

Definition binaryOutput {A} (binaryData : list A) : gmap string A :=
  reduce_items binaryData 0 ∅.

End Server.

(* ===================================================================== *)
(** * Vocabulary of the properties *)
(* ===================================================================== *)

(** ** Places in a guard *)

Module GuardPaths.
Import JS Guard.

(** The place of a node inside an entry of a guard: the entry itself, a
    place inside one child of an operator given an array, or a place inside
    the operand of an operator given an object. *)
Inductive Path :=
| here
| in_array (o : Operator) (ws1 : list Where) (w1 : Where) (p : Path)
    (w2 : Where) (ws2 : list Where)
| in_object (o : Operator) (w1 : Where) (p : Path) (w2 : Where).

(** The entry that has [node] at the place [p]. *)
Fixpoint plug (p : Path) (node : Clause) : Clause :=
  match p with
  | here => node
  | in_array o ws1 w1 p' w2 ws2 =>
      c_op o (ws1 ++ (w1 ++ plug p' node :: w2) :: ws2)
  | in_object o w1 p' w2 => c_op_obj o (w1 ++ plug p' node :: w2)
  end.

(** Whether the place lies below an odd number of [$not] operators given an
    object.  A [$not] given an array does not count: the matcher does not
    look into the array. *)
Fixpoint negative (p : Path) : bool :=
  match p with
  | here => false
  | in_array _ _ _ p' _ _ => negative p'
  | in_object op_not _ p' _ => negb (negative p')
  | in_object _ _ p' _ => negative p'
  end.

(** The guard [pre ++ [entry] ++ post], with [node] at the place [p] of
    [entry], holds. *)
Definition holds_with (pre : Where) (p : Path) (post : Where)
    (S : PageState) (H : list string) (node : Clause) : Prop :=
  applicable (pre ++ plug p node :: post) S H = true.

End GuardPaths.

(** ** Traces of the executor and of the main loop *)

Module Traces.
Import JS Guard Extract Steps Loop.

(** The events of a step put in front of what the rest of the body does. *)
Definition followed_by (evs : list Event) (r : list Event * Outcome * nat)
    : list Event * Outcome * nat :=
  (evs ++ r.1.1, r.1.2, r.2).

(** The identities of the pairs whose bodies were executed, in order. *)
Definition fired_refs (r : list Firing * Exit) : list nat := fired <$> r.1.

(** The number of leading occurrences of [u]. *)
Fixpoint lead (u : nat) (l : list nat) : nat :=
  match l with
  | x :: l' => if bool_decide (x = u) then S (lead u l') else 0
  | [] => 0
  end.

End Traces.

(** ** Invariants of the pagination engine *)

Module PaginationSpec.
Import JS Pagination.

Section WithItems.
Context {item : Type} (stringify : item → string).

(** The keys under which [scrapeCurrentPage] remembers items. *)
Definition keys (l : list item) : list string := stringify <$> l.

(** A computation is calm when it changes neither [allResults] nor
    [scrapedItems], and returns from [handlePagination], if it does, with
    [allResults]. *)
Definition calm {A} (c : M (item := item) A) : Prop :=
  ∀ v sc,
    match c v sc with
    | Val _ v' _ | Exc v' _ =>
        allResults v' = allResults v ∧ scrapedItems v' = scrapedItems v
    | Return r _ => r = allResults v
    | Stuck => True
    end.

(** A computation is steady when it leaves [previousHeight] as it is. *)
Definition steady {A} (c : M (item := item) A) : Prop :=
  ∀ v sc,
    match c v sc with
    | Val _ v' _ | Exc v' _ => previousHeight v' = previousHeight v
    | Return _ _ | Stuck => True
    end.

(** The variables after a scrape that read the height [h] and kept the
    items [new], with [seen] the keys then recorded. *)
Definition scraped (v : Vars) (h : Z) (new : list item) (seen : gset string) : Vars :=
  {| allResults := allResults v ++ new; previousHeight := h;
     scrapedItems := seen; visitedUrls := visitedUrls v;
     availableSelectors := availableSelectors v |}.

Section WithConfig.
Variable config : Config.

(** With a positive limit, [n] results are below it. *)
Definition below (n : nat) : Prop :=
  ∀ L, limit config = Some L → (0 < L)%Z → (Z.of_nat n < L)%Z.

(** The results are pairwise distinct by key and their keys are recorded. *)
Definition Dist (l : list item) (s : gset string) : Prop :=
  NoDup (keys l) ∧ (∀ x, x ∈ l → stringify x ∈ s).

(** The invariant between two scrapes. *)
Definition Inv (l : list item) (s : gset string) : Prop :=
  Dist l s ∧ below (length l).

(** What is promised of a delivered list. *)
Definition Good (r : list item) : Prop :=
  NoDup (keys r) ∧
  ∀ L, limit config = Some L → (0 < L)%Z → (Z.of_nat (length r) ≤ L)%Z.

(** From a state satisfying [P], the computation [c] continues in a state
    satisfying [Q], throws in a state satisfying the invariant, or returns
    a good list. *)
Definition triple {A} (P : list item → gset string → Prop) (c : M A)
    (Q : A → list item → gset string → Prop) : Prop :=
  ∀ v sc,
    P (allResults v) (scrapedItems v) →
    match c v sc with
    | Val a v' _ => Q a (allResults v') (scrapedItems v')
    | Exc v' _ => Inv (allResults v') (scrapedItems v')
    | Return r _ => Good r
    | Stuck => True
    end.

End WithConfig.

End WithItems.

End PaginationSpec.

(** ** Sample workflows, pages and runs *)

Module Samples.
Import JS Guard Extract Steps Loop Pagination.

Definition state0 : PageState :=
  {| url := Some (RStr "https://example.com/x"); cookies := ∅;
     Guard.selectors := [] |}.

Definition two_pairs : Workflow :=
  [ {| id := Some "general"; where_ := []; what := [] |};
    {| id := Some "override";
       where_ := [c_url (RStr "https://example.com/x")]; what := [] |};
    {| id := Some "elsewhere";
       where_ := [c_url (RStr "https://example.com/y")]; what := [] |} ].

Definition page0 : PageObs :=
  {| live_url := "https://example.com/final"; jar := []; attached := λ _, true |}.

Definition recorded : Workflow :=
  [ {| id := Some "a"; where_ := [c_url (RStr "https://example.com/x")]; what := [] |};
    {| id := Some "b"; where_ := [c_url (RStr "https://example.com/start")];
       what := [] |} ].

(** A page on which the first [n] invocations throw. *)
Definition failing_first (n : nat) : Driver :=
  {| defined := λ _, true; resolves := λ k, Nat.leb n k |}.

Definition click_then_goto : list What :=
  [ {| action := "click"; args := ArgsList ["#next"] |};
    {| action := "goto"; args := ArgsOne "https://example.com/2" |} ].

(** A pair that matches every state and whose only action is not a method
    of the page, so that its body throws each time. *)
Definition stubborn : Workflow :=
  [ {| id := Some "loop"; where_ := [];
       what := [ {| action := "noop"; args := ArgsNone |} ] |} ].

Definition failing_page : Obs :=
  {| gone := false; load_fails := false; state_fails := false;
     page := {| live_url := "https://example.com/"; jar := [];
                attached := λ _, false |};
     driver := {| defined := λ _, true; resolves := λ _, false |} |}.

(** A page that answers every step of a body. *)
Definition calm_page : Obs :=
  {| gone := false; load_fails := false; state_fails := false;
     page := page0; driver := failing_first 0 |}.

(** A [RegExp] that the url of [page0] does not pass. *)
Definition ftp_only : RegExp :=
  {| re_ref := 7; re_string := "/^ftp:/"; re_test := λ s, prefix_of "ftp:" s |}.

Definition regexp_guarded : Workflow :=
  [ {| id := Some "any"; where_ := [c_url (RRegex ftp_only)]; what := [] |} ].

Definition after_regexp : Workflow :=
  [ {| id := Some "first"; where_ := []; what := [] |};
    {| id := Some "then"; where_ := [c_meta meta_after (RRegex ftp_only)];
       what := [] |} ].

Definition string_key (x : string) : string := x.

Definition next_config : Config :=
  {| limit := Some 3%Z; ptype := clickNext; selector := ".next" |}.

(** Two pages of a [clickNext] run: the second scrape brings one known and
    two new items, and the limit of three cuts the list. *)
Definition next_script : list (Resp (item := string)) :=
  [ RUrl "https://example.com/p1"; RItems ["a"; "b"];
    ROk;                                     (* the selector is attached *)
    RSig "https://example.com/p1" 2 "a|b";
    ROk;                                     (* click with navigation *)
    ROk;                                     (* waitForLoadState *)
    RUrl "https://example.com/p2"; RItems ["b"; "c"; "d"];
    ROk ].

Definition more_config : Config :=
  {| limit := None; ptype := clickLoadMore; selector := ".more" |}.

(** The variables when the loop of [clickLoadMore] is entered with two
    items scraped. *)
Definition two_scraped (h : Z) : Vars (item := string) :=
  {| allResults := ["a"; "b"]; previousHeight := h;
     scrapedItems := {["a"]} ∪ ({["b"]} ∪ ∅); visitedUrls := ∅;
     availableSelectors := [".more"] |}.

(** The answers to one pass of the loop: the button is found, the click
    resolves, the waits and the scroll resolve, then the height and the
    items. *)
Definition pass (h : Z) (items : list string) : list (Resp (item := string)) :=
  [ROk; ROk; ROk; ROk; ROk; ROk; RNum h; RItems items].

End Samples.

(** ** Vocabulary and samples for the further properties *)

Module MoreTraces.
Import JS Guard Extract Steps Loop.

(** The event of a step whose first invocation resolves. *)
Definition plain_event (step : What) : Event :=
  if includes wawActions (action step) then
    EBuiltin (action step) (params (args step))
  else
    let levels := split "."%char (action step) in
    ECall (removelast levels) (List.last levels "")
      (passed (List.last levels "") (of_args (args step))).

(** A call of [press] or [type] carries at most two arguments. *)
Definition short_input_call (e : Event) : Prop :=
  match e with
  | ECall _ methodName args =>
      methodName = "press" ∨ methodName = "type" → length args ≤ 2
  | _ => True
  end.

(** The identities of the pairs whose bodies ran to completion, in
    order. *)
Definition done_refs (fs : list Firing) : list nat :=
  fired <$> List.filter (λ f, match outcome f with Done => true | Threw => false end) fs.

(** The id that [runLoop] records for the pair of index [r] of a
    workflow. *)
Definition recorded_id (workflow : Workflow) (r : nat) : string :=
  default "undefined" (workflow !! r ≫= id).

(** The first defined value under [key] among the entries of the scraped
    records. *)
Fixpoint first_defined (key : string) (entries : list (string * option string))
    : option string :=
  match entries with
  | [] => None
  | (k, Some value) :: entries' =>
      if String.eqb k key then Some value else first_defined key entries'
  | (_, None) :: entries' => first_defined key entries'
  end.

End MoreTraces.

(* ===================================================================== *)
(** * Properties *)
(* ===================================================================== *)

(** ** JavaScript helpers *)

Section JSFacts.
Import JS.

Lemma includes_elem_of l x : includes l x = true ↔ x ∈ l.
Proof.
  unfold includes. rewrite existsb_exists. split.
  - intros (y & Hy & He). apply String.eqb_eq in He. subst.
    by apply list_elem_of_In.
  - intros Hx. exists x. split; [by apply list_elem_of_In|apply String.eqb_refl].
Qed.

Lemma find_none f l : find f l = None ↔ Forall (λ x, f x = false) l.
Proof.
  induction l as [|x l IH]; simpl.
  - split; [constructor|done].
  - destruct (f x) eqn:E.
    + split; [done|]. inversion 1; congruence.
    + rewrite IH. split; [by constructor|by inversion 1].
Qed.

Lemma find_some f l x : find f l = Some x → x ∈ l ∧ f x = true.
Proof.
  induction l as [|y l IH]; simpl; [done|].
  destruct (f y) eqn:E.
  - intros [= <-]. split; [left|done].
  - intros Hf. destruct (IH Hf). split; [by right|done].
Qed.

Lemma strict_eq_str v s : strict_eq v (Some (RStr s)) = true ↔ v = Some (RStr s).
Proof.
  destruct v as [[t|r]|]; simpl; try (split; [done|congruence]).
  rewrite String.eqb_eq. split; congruence.
Qed.

Lemma strict_eq_str_false v s :
  strict_eq v (Some (RStr s)) = false ↔ v ≠ Some (RStr s).
Proof.
  rewrite <- strict_eq_str. destruct (strict_eq _ _); split; congruence.
Qed.

End JSFacts.

(** ** The guard matcher *)

Section GuardFacts.
Import JS Guard GuardPaths Samples.

Lemma scan_sound W S H n i :
  scan W S H n = Some i →
  i < n ∧
  (∃ p, W !! i = Some p ∧ applicable (where_ p) S H = true) ∧
  (∀ j p, i < j → j < n → W !! j = Some p → applicable (where_ p) S H = false).
Proof.
  induction n as [|n IH]; simpl; [done|].
  destruct (W !! n) as [step|] eqn:Hn; [|done].
  destruct (applicable (where_ step) S H) eqn:Ha.
  - intros [= <-]. split; [lia|]. split; [eauto|]. intros; lia.
  - intros Hs. destruct (IH Hs) as (Hi & Hp & Hj).
    split; [lia|]. split; [done|].
    intros j p Hij Hjn Hl.
    destruct (decide (j = n)) as [->|]; [congruence|].
    apply (Hj j p); [lia|lia|done].
Qed.

(** The scan is complete: it falls through only when no guard matches. *)
Lemma scan_none W S H n :
  n ≤ length W →
  scan W S H n = None →
  ∀ j p, j < n → W !! j = Some p → applicable (where_ p) S H = false.
Proof.
  induction n as [|n IH]; simpl; intros Hlen; [intros; lia|].
  destruct (W !! n) as [step|] eqn:Hn.
  - destruct (applicable (where_ step) S H) eqn:Ha; [done|].
    intros Hs j p Hj Hl.
    destruct (decide (j = n)) as [->|]; [congruence|].
    apply (IH ltac:(lia) Hs j p); [lia|done].
  - apply lookup_ge_None in Hn. lia.
Qed.

(** C1. [getMatchingActionId] scans the workflow copy from its last pair to
    its first: when it returns the index [i], the guard of pair [i] holds
    on the state (with the history of fired ids), and the guard of no pair
    of greater index does. *)
Theorem getMatchingActionId_last_match
    (W : Workflow) (S : PageState) (H : list string) (i : nat) :
  getMatchingActionId W S H = Some i →
  (∃ p, W !! i = Some p ∧ applicable (where_ p) S H = true) ∧
  (∀ j p, i < j → W !! j = Some p → applicable (where_ p) S H = false).
Proof.
  intros Hs. destruct (scan_sound _ _ _ _ _ Hs) as (_ & Hp & Hj).
  split; [done|]. intros j p Hij Hl. apply (Hj j p); [done| |done].
  by apply lookup_lt_Some in Hl.
Qed.

Lemma getMatchingActionId_last_match_witness :
  getMatchingActionId two_pairs state0 [] = Some 1 ∧
  (∃ p, two_pairs !! 1 = Some p ∧ applicable (where_ p) state0 [] = true) ∧
  (∀ j p, 1 < j → two_pairs !! j = Some p → applicable (where_ p) state0 [] = false).
Proof.
  split; [reflexivity|].
  apply (getMatchingActionId_last_match two_pairs state0 [] 1). reflexivity.
Defined.


Lemma some_includes G P :
  existsb (λ selector, includes P selector) G = true ↔ ∃ s, s ∈ G ∧ s ∈ P.
Proof.
  rewrite existsb_exists. split; intros (s & Hs & Hi); exists s.
  - split; [by apply list_elem_of_In|by apply includes_elem_of].
  - split; [by apply list_elem_of_In|by apply includes_elem_of].
Qed.

Lemma selectors_inclusive_spec G P :
  selectors_inclusive G P = true ↔ (G = [] ∧ P = []) ∨ (∃ s, s ∈ G ∧ s ∈ P).
Proof.
  unfold selectors_inclusive.
  destruct G as [|g G]; destruct P as [|q P]; cbn [length Nat.eqb andb].
  - split; [by left|done].
  - rewrite some_includes. split; [by right|].
    intros [[_ [=]]|Hex]; done.
  - rewrite some_includes. split; [by right|].
    intros [[[=] _]|Hex]; done.
  - rewrite some_includes. split; [by right|].
    intros [[[=] _]|Hex]; done.
Qed.

(** C5, as the code has it. The [selectors] clause of a guard with list [G]
    matches a state whose attached selectors are [P] exactly when [G] and
    [P] are both empty or have an element in common. *)
Theorem selectors_clause_matches
    (G : list string) (S : PageState) (H : list string) :
  clause_applicable (c_selectors G) S H = true ↔
  (G = [] ∧ selectors S = []) ∨ (∃ s, s ∈ G ∧ s ∈ selectors S).
Proof. apply selectors_inclusive_spec. Qed.

(** C5 as stated fails: an empty guard list matches a state without
    attached selectors although the two lists share no element. *)
Lemma selectors_clause_empty_lists :
  clause_applicable (c_selectors [])
    {| url := Some (RStr "https://example.com/x"); cookies := ∅; selectors := [] |} []
  = true ∧
  ¬ (∃ s : string, s ∈ ([] : list string) ∧ s ∈ ([] : list string)).
Proof.
  split; [reflexivity|]. intros (s & Hs & _). by apply elem_of_nil in Hs.
Qed.

(** The two meta operators always give opposite answers. *)
Lemma before_not_after v S H :
  clause_applicable (c_meta meta_before v) S H
  = negb (clause_applicable (c_meta meta_after v) S H).
Proof. simpl. by rewrite negb_involutive. Qed.

(** At the top level of a guard, and when the empty string is not a fired
    id, [$after] holds exactly when some fired id passes the test. *)
Lemma after_matches_nonempty v S H :
  "" ∉ H →
  clause_applicable (c_meta meta_after v) S H = true ↔
  ∃ x, x ∈ H ∧ testRegexString v x = true.
Proof.
  intros Hne. simpl. rewrite negb_involutive.
  destruct (find (testRegexString v) H) as [x|] eqn:Hf; simpl.
  - apply find_some in Hf as [Hx Ht].
    destruct (String.eqb_spec x "") as [->|Hx0]; [done|].
    simpl. split; [eauto|done].
  - split; [done|]. intros (x & Hx & Ht).
    apply find_none in Hf. rewrite Forall_forall in Hf.
    rewrite (Hf x Hx) in Ht. done.
Qed.

(** [find] returns the fired id itself and its truthiness is tested: a
    fired id that is the empty string does not count as fired. *)
Lemma before_after_empty_id (S : PageState) :
  "" ∈ [""] ∧
  clause_applicable (c_meta meta_before (RStr "")) S [""] = true ∧
  clause_applicable (c_meta meta_after (RStr "")) S [""] = false.
Proof. split; [left|]. split; reflexivity. Qed.

(** C6, the inputs on which the code departs from it. A meta predicate
    below an operator is evaluated against the empty history, whatever has
    fired: with ["login"] fired, [$after: "login"] holds at the top level of
    a guard but not as a child of [$and], and [$before: "login"] fails at
    the top level but holds as a child of [$and]; in general a [$before]
    child always holds and an [$after] child never does. *)
Theorem nested_meta_ignores_history (S : PageState) :
  "login" ∈ ["login"] ∧
  applicable [c_meta meta_after (RStr "login")] S ["login"] = true ∧
  applicable [c_op op_and [[c_meta meta_after (RStr "login")]]] S ["login"] = false ∧
  applicable [c_meta meta_before (RStr "login")] S ["login"] = false ∧
  applicable [c_op op_and [[c_meta meta_before (RStr "login")]]] S ["login"] = true ∧
  (∀ v H,
      applicable [c_op op_and [[c_meta meta_before v]]] S H = true ∧
      applicable [c_op op_and [[c_meta meta_after v]]] S H = false ∧
      applicable [c_op op_or [[c_meta meta_before v]]] S H = true ∧
      applicable [c_op op_or [[c_meta meta_after v]]] S H = false ∧
      applicable [c_op_obj op_not [c_meta meta_before v]] S H = false ∧
      applicable [c_op_obj op_not [c_meta meta_after v]] S H = true).
Proof.
  split; [left|]. repeat split; reflexivity.
Qed.

Lemma applicable_app w1 w2 S H :
  applicable (w1 ++ w2) S H = applicable w1 S H && applicable w2 S H.
Proof. unfold applicable. apply forallb_app. Qed.

Lemma applicable_cons c w S H :
  applicable (c :: w) S H = clause_applicable c S H && applicable w S H.
Proof. reflexivity. Qed.

(** Replacing one entry of a guard by a weaker one keeps a match. *)
Lemma applicable_weaken pre post c c' S H :
  (clause_applicable c S H = true → clause_applicable c' S H = true) →
  applicable (pre ++ c :: post) S H = true →
  applicable (pre ++ c' :: post) S H = true.
Proof.
  intros Hc. rewrite !applicable_app, !applicable_cons, !andb_true_iff.
  intros (? & ? & ?). auto.
Qed.

(** Adding a child to an [$and] node loses matches, adding one to an [$or]
    node gains matches, whatever the history the node is evaluated
    against. *)
Lemma and_array_child ws1 x ws2 S H :
  clause_applicable (c_op op_and (ws1 ++ x :: ws2)) S H = true →
  clause_applicable (c_op op_and (ws1 ++ ws2)) S H = true.
Proof. simpl. rewrite !forallb_app. simpl. rewrite !andb_true_iff. tauto. Qed.

Lemma or_array_child ws1 x ws2 S H :
  clause_applicable (c_op op_or (ws1 ++ ws2)) S H = true →
  clause_applicable (c_op op_or (ws1 ++ x :: ws2)) S H = true.
Proof. simpl. rewrite !existsb_app. simpl. rewrite !orb_true_iff. tauto. Qed.

Lemma and_object_child w1 c w2 S H :
  clause_applicable (c_op_obj op_and (w1 ++ c :: w2)) S H = true →
  clause_applicable (c_op_obj op_and (w1 ++ w2)) S H = true.
Proof. simpl. rewrite !forallb_app. simpl. rewrite !andb_true_iff. tauto. Qed.

Lemma or_object_child w1 c w2 S H :
  clause_applicable (c_op_obj op_or (w1 ++ w2)) S H = true →
  clause_applicable (c_op_obj op_or (w1 ++ c :: w2)) S H = true.
Proof. simpl. rewrite !existsb_app. simpl. rewrite !orb_true_iff. tauto. Qed.

(** Replacing a node by a weaker one weakens the entry when the node lies
    below an even number of [$not] objects, and strengthens it when the
    number is odd. *)
Lemma plug_monotone S p : ∀ c c',
  (∀ H, clause_applicable c S H = true → clause_applicable c' S H = true) →
  ∀ H,
    (negative p = false →
     clause_applicable (plug p c) S H = true →
     clause_applicable (plug p c') S H = true) ∧
    (negative p = true →
     clause_applicable (plug p c') S H = true →
     clause_applicable (plug p c) S H = true).
Proof.
  induction p as [|o ws1 w1 p IH w2 ws2|o w1 p IH w2]; intros c c' Hc H;
    cbn [plug negative].
  - split; [intros _; apply Hc|done].
  - destruct (IH c c' Hc []) as [IHpos IHneg].
    cbn [clause_applicable].
    destruct o;
      rewrite ?forallb_app, ?existsb_app; cbn [forallb existsb];
      rewrite ?forallb_app; cbn [forallb];
      (split; intros Hn;
       [specialize (IHpos Hn)|specialize (IHneg Hn)];
       destruct (clause_applicable (plug p c) S []),
                (clause_applicable (plug p c') S []);
       try done; try (by specialize (IHpos eq_refl));
       try (by specialize (IHneg eq_refl));
       repeat match goal with
              | |- context [forallb ?f ?l] => destruct (forallb f l)
              | |- context [existsb ?f ?l] => destruct (existsb f l)
              end; done).
  - destruct (IH c c' Hc []) as [IHpos IHneg].
    cbn [clause_applicable].
    destruct o; cbn [negative];
      rewrite ?forallb_app, ?existsb_app; cbn [forallb existsb];
      (split; intros Hn;
       first [ specialize (IHpos Hn)
             | specialize (IHneg Hn)
             | apply negb_false_iff in Hn; specialize (IHneg Hn)
             | apply negb_true_iff in Hn; specialize (IHpos Hn) ];
       destruct (clause_applicable (plug p c) S []),
                (clause_applicable (plug p c') S []);
       try done; try (by specialize (IHpos eq_refl));
       try (by specialize (IHneg eq_refl));
       repeat match goal with
              | |- context [forallb ?f ?l] => destruct (forallb f l)
              | |- context [existsb ?f ?l] => destruct (existsb f l)
              end; done).
Qed.

(** C7, as the code has it. Take an [$and] or an [$or] node anywhere in a
    guard, in array form or in object form, and insert a child anywhere in
    it.  When the node lies below an even number of [$not] objects (none,
    for instance), the child added to [$and] can only lose matches and the
    child added to [$or] can only gain matches; when the number is odd, it
    is the other way round. *)
Theorem and_or_monotone
    (pre post : Where) (p : Path) (ws1 ws2 : list Where) (w1 w2 : Where)
    (x : Where) (c : Clause) (S : PageState) (H : list string) :
  let holds := holds_with pre p post S H in
  (negative p = false →
   (holds (c_op op_and (ws1 ++ x :: ws2)) → holds (c_op op_and (ws1 ++ ws2))) ∧
   (holds (c_op op_or (ws1 ++ ws2)) → holds (c_op op_or (ws1 ++ x :: ws2))) ∧
   (holds (c_op_obj op_and (w1 ++ c :: w2)) → holds (c_op_obj op_and (w1 ++ w2))) ∧
   (holds (c_op_obj op_or (w1 ++ w2)) → holds (c_op_obj op_or (w1 ++ c :: w2)))) ∧
  (negative p = true →
   (holds (c_op op_and (ws1 ++ ws2)) → holds (c_op op_and (ws1 ++ x :: ws2))) ∧
   (holds (c_op op_or (ws1 ++ x :: ws2)) → holds (c_op op_or (ws1 ++ ws2))) ∧
   (holds (c_op_obj op_and (w1 ++ w2)) → holds (c_op_obj op_and (w1 ++ c :: w2))) ∧
   (holds (c_op_obj op_or (w1 ++ c :: w2)) → holds (c_op_obj op_or (w1 ++ w2)))).
Proof.
  cbv zeta. unfold holds_with.
  split; intros Hn; repeat split; apply applicable_weaken.
  - apply (plug_monotone S p _ _ (and_array_child ws1 x ws2 S) H); done.
  - apply (plug_monotone S p _ _ (or_array_child ws1 x ws2 S) H); done.
  - apply (plug_monotone S p _ _ (and_object_child w1 c w2 S) H); done.
  - apply (plug_monotone S p _ _ (or_object_child w1 c w2 S) H); done.
  - apply (plug_monotone S p _ _ (and_array_child ws1 x ws2 S) H); done.
  - apply (plug_monotone S p _ _ (or_array_child ws1 x ws2 S) H); done.
  - apply (plug_monotone S p _ _ (and_object_child w1 c w2 S) H); done.
  - apply (plug_monotone S p _ _ (or_object_child w1 c w2 S) H); done.
Qed.

Lemma and_or_monotone_witness :
  applicable [c_op op_and [[c_url (RStr "https://example.com/x")]]] state0 [] = true ∧
  applicable [c_op_obj op_not
                [c_op op_and [[c_url (RStr "https://example.com/y")];
                              [c_url (RStr "https://example.com/x")]]]] state0 []
  = true.
Proof.
  split.
  - apply (proj1 (proj1 (and_or_monotone [] [] here
                    [[c_url (RStr "https://example.com/x")]] []
                    [] [] [c_selectors []] (c_selectors []) state0 []) eq_refl)).
    reflexivity.
  - apply (proj1 (proj2 (and_or_monotone [] [] (in_object op_not [] here [])
                    [[c_url (RStr "https://example.com/y")]] []
                    [] [] [c_url (RStr "https://example.com/x")] (c_selectors [])
                    state0 []) eq_refl)).
    reflexivity.
Defined.

(** C7 as stated fails below [$not]: on a state at the url [x], the guard
    [{$not: {$and: [{url: x}]}}] does not hold, and with the child
    [{url: y}] added to its [$and] node it holds; the guard
    [{$not: {$or: [{url: y}]}}] holds, and with the child [{url: x}] added
    to its [$or] node it does not. *)
Lemma and_below_not_gains_matches :
  applicable [c_op_obj op_not
                [c_op op_and [[c_url (RStr "https://example.com/x")];
                              [c_url (RStr "https://example.com/y")]]]] state0 []
  = true ∧
  applicable [c_op_obj op_not
                [c_op op_and [[c_url (RStr "https://example.com/x")]]]] state0 []
  = false ∧
  applicable [c_op_obj op_not
                [c_op op_or [[c_url (RStr "https://example.com/y")]]]] state0 []
  = true ∧
  applicable [c_op_obj op_not
                [c_op op_or [[c_url (RStr "https://example.com/y")];
                             [c_url (RStr "https://example.com/x")]]]] state0 []
  = false.
Proof. repeat split; reflexivity. Qed.

End GuardFacts.

(** ** The page-state extractor *)

Section ExtractFacts.
Import JS Guard Extract Samples.

(** C9, as the code has it. The url reported by [getState] is the live url
    of the page when the workflow copy is empty.  Otherwise it depends on
    the guard of the last pair of the copy: without a [url] key the
    reported url is [undefined]; with a [url] key whose value differs from
    the live url and from ["about:blank"], it is that value; with a [url]
    key whose value is the live url or ["about:blank"], it is the live
    url. *)
Theorem getState_url (pg : PageObs) (W : Workflow) (sel : list string) :
  match last W with
  | None => url (getState pg W sel) = Some (RStr (live_url pg))
  | Some action =>
      match where_url (where_ action) with
      | None => url (getState pg W sel) = None
      | Some v =>
          (v ≠ RStr (live_url pg) ∧ v ≠ RStr "about:blank" →
           url (getState pg W sel) = Some v) ∧
          (v = RStr (live_url pg) ∨ v = RStr "about:blank" →
           url (getState pg W sel) = Some (RStr (live_url pg)))
      end
  end.
Proof.
  unfold getState, state_url; simpl.
  destruct (last W) as [action|]; [|done].
  destruct (where_url (where_ action)) as [v|]; [|done].
  destruct (strict_eq (Some v) (Some (RStr (live_url pg)))) eqn:E1;
    destruct (strict_eq (Some v) (Some (RStr "about:blank"))) eqn:E2;
    simpl;
    first [apply strict_eq_str in E1 | apply strict_eq_str_false in E1];
    first [apply strict_eq_str in E2 | apply strict_eq_str_false in E2];
    split; intros; try done; intuition congruence.
Qed.

Lemma getState_url_witness :
  url (getState page0 recorded []) = Some (RStr "https://example.com/start").
Proof.
  apply (proj1 (getState_url page0 recorded [])).
  split; discriminate.
Defined.

(** C9 as stated fails: the last pair of this copy has no [where.url], so
    that no [where.url] differs from the live url, and yet the reported url
    is not the live url: it is [undefined]. *)
Lemma getState_url_undefined :
  where_url (where_ {| id := Some "next"; where_ := [c_selectors ["#next"]];
                       what := [] |}) = None ∧
  url (getState page0
         [ {| id := Some "next"; where_ := [c_selectors ["#next"]]; what := [] |} ] [])
  = None ∧
  url (getState page0
         [ {| id := Some "next"; where_ := [c_selectors ["#next"]]; what := [] |} ] [])
  ≠ Some (RStr (live_url page0)).
Proof. split; [reflexivity|]. split; [reflexivity|discriminate]. Qed.

(** A last pair whose guard has no [url] key makes the reported url
    undefined, whatever the page. *)
Lemma getState_url_absent (pg : PageObs) (sel : list string) :
  url (getState pg [ {| id := None; where_ := [c_selectors ["#next"]]; what := [] |} ] sel)
  = None.
Proof. reflexivity. Qed.

(** The selectors of the state are the probed selectors that are attached,
    in order. *)
Lemma getState_selectors (pg : PageObs) (W : Workflow) (sel : list string) :
  selectors (getState pg W sel) = List.filter (attached pg) sel.
Proof.
  unfold getState. cbn [selectors].
  induction sel as [|s sel IH]; [done|].
  rewrite fmap_cons. cbn [concat List.filter]. rewrite IH.
  by destruct (attached pg s).
Qed.

End ExtractFacts.

(** ** The action executor *)

Section StepsFacts.
Import JS Guard Steps Traces Samples.

(** C3, as the code has it. For a [click] step (the last level of the
    dotted action is [click], its path resolves and [args] is present):
    when the click resolves nothing else is tried; when it throws, it is
    called once more with [step.args[0]] and [{ force: true }]; when that
    call throws too, the failure is swallowed and the executor goes on with
    the next action of the same body, skipping only the pause. *)
Theorem click_retry_then_next_step
    (page : Driver) (k : nat) (step : What) (rest : list What) (a : Arg) :
  includes wawActions (action step) = false →
  List.last (split "."%char (action step)) "" = "click" →
  walk page [] (removelast (split "."%char (action step))) = true →
  first_arg (args step) = Some a →
  let path := removelast (split "."%char (action step)) in
  let plain := ECall path "click" (passed "click" (of_args (args step))) in
  let forced := ECall path "click" [a; AForce] in
  (resolves page k = true →
   carryOutSteps page k (step :: rest)
   = followed_by [plain; ESleep] (carryOutSteps page (S k) rest)) ∧
  (resolves page k = false → resolves page (S k) = true →
   carryOutSteps page k (step :: rest)
   = followed_by [plain; forced; ESleep] (carryOutSteps page (S (S k)) rest)) ∧
  (resolves page k = false → resolves page (S k) = false →
   carryOutSteps page k (step :: rest)
   = followed_by [plain; forced] (carryOutSteps page (S (S k)) rest)).
Proof.
  intros Hb Hm Hw Ha path plain forced.
  unfold followed_by.
  repeat split; intros; cbn [carryOutSteps];
    rewrite Hb, Hm, Hw, Ha; simpl;
    repeat match goal with H : resolves _ _ = _ |- _ => rewrite H end;
    by destruct (carryOutSteps page _ rest) as [[? ?] ?].
Qed.

Lemma click_retry_then_next_step_witness :
  carryOutSteps (failing_first 2) 0 click_then_goto
  = followed_by
      [ECall [] "click" [AVal "#next"]; ECall [] "click" [AVal "#next"; AForce]]
      (carryOutSteps (failing_first 2) 2
         [ {| action := "goto"; args := ArgsOne "https://example.com/2" |} ]).
Proof.
  apply (proj2 (proj2 (click_retry_then_next_step (failing_first 2) 0
           {| action := "click"; args := ArgsList ["#next"] |}
           [ {| action := "goto"; args := ArgsOne "https://example.com/2" |} ]
           (AVal "#next") eq_refl eq_refl eq_refl eq_refl)));
    reflexivity.
Defined.

(** C3 as stated fails: after a click that fails twice, the action that
    follows it in the body is carried out and the body ends normally. *)
Lemma click_failure_does_not_skip_body :
  carryOutSteps (failing_first 2) 0 click_then_goto
  = ([ ECall [] "click" [AVal "#next"];
       ECall [] "click" [AVal "#next"; AForce];
       ECall [] "goto" [AVal "https://example.com/2"];
       ESleep ], Done, 3).
Proof. reflexivity. Qed.

End StepsFacts.

(** ** The main loop *)

Section LoopFacts.
Import JS Guard Extract Steps Loop Traces Samples.

Lemma replicate_lead k u post : k ≤ lead u (replicate k u ++ post).
Proof.
  induction k as [|k IH]; simpl; [lia|].
  rewrite bool_decide_true by done. lia.
Qed.

Lemma over_limit_false m c :
  (0 < m)%Z → over_limit m c = false → (Z.of_nat c ≤ m)%Z.
Proof.
  unfold over_limit. intros Hm.
  destruct (Z.eqb_spec m 0); [lia|]. simpl.
  intros Hlt. apply Z.ltb_ge in Hlt. lia.
Qed.

Lemma over_limit_true m c :
  (0 < m)%Z → (m < Z.of_nat c)%Z → over_limit m c = true.
Proof.
  unfold over_limit. intros Hm Hc.
  destruct (Z.eqb_spec m 0); [lia|]. simpl. by apply Z.ltb_lt.
Qed.

(** The two facts carried through the loop: no block of equal firings is
    longer than [m + 1], and the firings of the last pair that are still to
    come, together with its repeat count, stay within [m]. *)
Lemma iterate_bound m script :
  (0 < m)%Z →
  ∀ st,
    (∀ pre k u post,
        fired_refs (iterate m script st) = pre ++ replicate k u ++ post →
        (Z.of_nat k ≤ m + 1)%Z) ∧
    (∀ u, lastAction st = Some u → (Z.of_nat (repeatCount st) ≤ m)%Z →
          (Z.of_nat (lead u (fired_refs (iterate m script st)))
           + Z.of_nat (repeatCount st) ≤ m)%Z).
Proof.
  intros Hm. unfold fired_refs.
  assert (Hnil : ∀ pre k (u : nat) post,
             [] = pre ++ replicate k u ++ post → (Z.of_nat k ≤ m + 1)%Z).
  { intros pre k u post Heq. symmetry in Heq.
    apply app_eq_nil in Heq as [_ Heq]. apply app_eq_nil in Heq as [Heq _].
    destruct k; [lia|done]. }
  induction script as [|o script IH]; intros st; simpl.
  { split; [done|]. intros; simpl; lia. }
  destruct (gone o); [split; [done|intros; simpl; lia]|].
  destruct (load_fails o); [split; [done|intros; simpl; lia]|].
  destruct (state_fails o); [split; [done|intros; simpl; lia]|].
  destruct (getMatchingActionId_throws _ _ _); [split; [done|intros; simpl; lia]|].
  destruct (getMatchingActionId _ _ _) as [actionId|];
    [|split; [done|intros; simpl; lia]].
  destruct (workflowCopy st !! actionId) as [action|];
    [|split; [done|intros; simpl; lia]].
  set (c := if bool_decide (lastAction st = Some (ref action))
            then S (repeatCount st) else 0).
  destruct (over_limit m c) eqn:Hover; [split; [done|intros; simpl; lia]|].
  apply over_limit_false in Hover; [|done].
  destruct (carryOutSteps _ _ _) as [[evs out] k'].
  match goal with
  | |- context [iterate m script ?s] => set (st' := s)
  end.
  assert (Hlast : lastAction st' = Some (ref action)) by (by destruct out).
  assert (Hcount : repeatCount st' = c) by (by destruct out).
  destruct (IH st') as [IH1 IH2].
  specialize (IH2 _ Hlast). rewrite Hcount in IH2. specialize (IH2 Hover).
  destruct (iterate m script st') as [fs e].
  cbn [fst] in *. rewrite fmap_cons. cbn [fired lead].
  split.
  - intros pre k u post Heq.
    destruct pre as [|x pre]; cbn [app] in Heq.
    + destruct k as [|k]; [lia|]. cbn [replicate app] in Heq.
      injection Heq as Hu Ht. subst u.
      pose proof (replicate_lead k (ref action) post) as Hl.
      rewrite <- Ht in Hl. lia.
    + injection Heq as _ Ht. by eapply IH1.
  - intros u Hu Hc. case_bool_decide as Hx; [|lia].
    subst u. subst c. rewrite bool_decide_true in IH2, Hover by done. lia.
Qed.

(** When the pair fired last is matched again with its repeat count at
    [m] or above, the loop returns without executing the body. *)
Lemma iterate_repeat_limit m o script st actionId action :
  (0 < m)%Z →
  gone o = false → load_fails o = false → state_fails o = false →
  getMatchingActionId_throws (pair <$> workflowCopy st)
    (getState (page o) (pair <$> workflowCopy st) (selectors st)) (usedActions st)
  = false →
  getMatchingActionId (pair <$> workflowCopy st)
    (getState (page o) (pair <$> workflowCopy st) (selectors st)) (usedActions st)
  = Some actionId →
  workflowCopy st !! actionId = Some action →
  lastAction st = Some (ref action) →
  (m ≤ Z.of_nat (repeatCount st))%Z →
  iterate m (o :: script) st = ([], RepeatLimit).
Proof.
  intros Hm Hg Hl Hs Hthrow Hmatch Hlook Hlast Hc. simpl.
  rewrite Hg, Hl, Hs, Hthrow, Hmatch, Hlook, bool_decide_true by done.
  rewrite over_limit_true; [done|done|lia].
Qed.

(** A run on more observations goes on from where the shorter run was
    pending. *)
Lemma iterate_app m s1 s2 : ∀ st0 fs st,
  iterate m s1 st0 = (fs, Pending st) →
  iterate m (s1 ++ s2) st0 = (fs ++ (iterate m s2 st).1, (iterate m s2 st).2).
Proof.
  induction s1 as [|o s1 IH]; intros st0 fs st; cbn [iterate app].
  - intros [= <- <-]. by destruct (iterate m s2 st0).
  - destruct (gone o); [done|]. destruct (load_fails o); [done|].
    destruct (state_fails o); [done|].
    destruct (getMatchingActionId_throws _ _ _); [done|].
    destruct (getMatchingActionId _ _ _) as [actionId|]; [|done].
    destruct (workflowCopy st0 !! actionId) as [action|]; [|done].
    destruct (over_limit _ _); [done|].
    destruct (carryOutSteps _ _ _) as [[evs out] k'].
    match goal with
    | |- context [iterate m s1 ?s] => set (st' := s)
    end.
    destruct (iterate m s1 st') as [fs1 e1] eqn:Hrun.
    intros [= <- ->]. rewrite (IH st' fs1 st Hrun).
    by destruct (iterate m s2 st).
Qed.

(** The state in which a run is pending remembers the block of firings that
    ends the run: the pair fired last, and a repeat count that covers the
    block. *)
Lemma iterate_pending m script : ∀ st0 fs st pre k u,
  iterate m script st0 = (fs, Pending st) →
  fired <$> fs = pre ++ replicate (S k) u →
  lastAction st = Some u ∧ k ≤ repeatCount st ∧
  (pre = [] → lastAction st0 = Some u → k + S (repeatCount st0) ≤ repeatCount st).
Proof.
  induction script as [|o script IH]; intros st0 fs st pre k u; cbn [iterate].
  - intros [= <- <-] Heq. symmetry in Heq.
    apply app_eq_nil in Heq as [_ Heq]. done.
  - destruct (gone o); [done|]. destruct (load_fails o); [done|].
    destruct (state_fails o); [done|].
    destruct (getMatchingActionId_throws _ _ _); [done|].
    destruct (getMatchingActionId _ _ _) as [actionId|]; [|done].
    destruct (workflowCopy st0 !! actionId) as [action|]; [|done].
    set (c := if bool_decide (lastAction st0 = Some (ref action))
              then S (repeatCount st0) else 0).
    destruct (over_limit m c); [done|].
    destruct (carryOutSteps _ _ _) as [[evs out] k'].
    match goal with
    | |- context [iterate m script ?s] => set (st' := s)
    end.
    assert (Hlast : lastAction st' = Some (ref action)) by (by destruct out).
    assert (Hcount : repeatCount st' = c) by (by destruct out).
    destruct (iterate m script st') as [fs1 e1] eqn:Hrun.
    intros [= <- ->]. rewrite fmap_cons. cbn [fired]. intros Heq.
    destruct pre as [|x pre]; cbn [app replicate] in Heq.
    + injection Heq as Hu Ht. subst u.
      destruct k as [|k]; cbn [replicate] in Ht.
      * apply fmap_nil_inv in Ht. subst fs1.
        destruct script as [|o' script]; cbn [iterate] in Hrun.
        -- injection Hrun as <-. rewrite Hlast, Hcount. split; [done|].
           split; [lia|]. intros _ Hl0. subst c.
           rewrite bool_decide_true by done. lia.
        -- exfalso. revert Hrun.
           destruct (gone o'); [done|]. destruct (load_fails o'); [done|].
           destruct (state_fails o'); [done|].
           destruct (getMatchingActionId_throws _ _ _); [done|].
           destruct (getMatchingActionId _ _ _); [|done].
           destruct (workflowCopy st' !! _); [|done].
           destruct (over_limit _ _); [done|].
           destruct (carryOutSteps _ _ _) as [[? ?] ?].
           by destruct (iterate m script _).
      * destruct (IH st' fs1 st [] k (ref action) Hrun Ht) as (Hl & _ & Hk).
        specialize (Hk eq_refl Hlast). rewrite Hcount in Hk.
        split; [done|]. split; [lia|]. intros _ Hl0. subst c.
        rewrite bool_decide_true in Hk by done. lia.
    + injection Heq as _ Ht.
      destruct (IH st' fs1 st pre k u Hrun Ht) as (Hl & Hk & _).
      split; [done|]. split; [done|]. intros [=].
Qed.

(** C2, as the code has it. With [maxRepeats = m > 0], for every workflow
    and every run of the loop on it: (1) no pair has its body executed more
    than [m + 1] times in a row, that is, a block of [k] consecutive
    firings of one pair in the run of a page has [k ≤ m + 1]; (2) when a
    run has just made [m + 1] consecutive firings of a pair and, on the
    next observation, the matcher returns that pair again, the loop returns
    without firing it. *)
Theorem runLoop_repeat_bound (m : Z) (workflow : Workflow) :
  (0 < m)%Z →
  (∀ script pre k u post,
      fired_refs (runLoop m workflow script) = pre ++ replicate k u ++ post →
      (Z.of_nat k ≤ m + 1)%Z) ∧
  (∀ script fs st pre u o more actionId action,
      runLoop m workflow script = (fs, Pending st) →
      fired <$> fs = pre ++ replicate (S (Z.to_nat m)) u →
      gone o = false → load_fails o = false → state_fails o = false →
      getMatchingActionId_throws (pair <$> workflowCopy st)
        (getState (page o) (pair <$> workflowCopy st) (selectors st))
        (usedActions st)
      = false →
      getMatchingActionId (pair <$> workflowCopy st)
        (getState (page o) (pair <$> workflowCopy st) (selectors st))
        (usedActions st)
      = Some actionId →
      workflowCopy st !! actionId = Some action →
      ref action = u →
      runLoop m workflow (script ++ o :: more) = (fs, RepeatLimit)).
Proof.
  intros Hm. unfold runLoop. cbv zeta. split.
  - intros script pre k u post Heq.
    by eapply (proj1 (iterate_bound m script Hm _)).
  - intros script fs st pre u o more actionId action
      Hrun Hfs Hg Hl Hs Hthrow Hmatch Hlook Hu.
    destruct (iterate_pending _ _ _ _ _ _ _ _ Hrun Hfs) as (Hlast & Hk & _).
    rewrite (iterate_app _ _ _ _ _ _ Hrun).
    rewrite (iterate_repeat_limit m o more st actionId action); try done.
    + simpl. by rewrite app_nil_r.
    + congruence.
    + lia.
Qed.

Lemma runLoop_repeat_bound_witness :
  (fired_refs (runLoop 3 stubborn (replicate 9 failing_page)) = [] ++ replicate 4 0 ++ []
   ∧ (Z.of_nat 4 ≤ 3 + 1)%Z) ∧
  (fired_refs (runLoop 3 stubborn (replicate 4 failing_page)) = replicate 4 0
   ∧ (runLoop 3 stubborn (replicate 4 failing_page ++ failing_page :: [])).2
     = RepeatLimit).
Proof.
  split; (split; [reflexivity|]).
  - apply (proj1 (runLoop_repeat_bound 3 stubborn ltac:(lia))
             (replicate 9 failing_page) [] 4 0 []).
    reflexivity.
  - erewrite (proj2 (runLoop_repeat_bound 3 stubborn ltac:(lia))
                (replicate 4 failing_page) _ _ [] 0 failing_page [] 0);
      [reflexivity|reflexivity|reflexivity|reflexivity|reflexivity|reflexivity
      |reflexivity|reflexivity|reflexivity|reflexivity].
Defined.

(** With [maxRepeats = 3] the stubborn pair fires four times; matched a
    fifth time, the loop returns. *)
Lemma repeat_guard_scenario :
  fired_refs (runLoop 3 stubborn (replicate 9 failing_page)) = [0; 0; 0; 0] ∧
  (runLoop 3 stubborn (replicate 9 failing_page)).2 = RepeatLimit.
Proof. split; reflexivity. Qed.

(** C2 as stated fails: with [maxRepeats = 1] a pair fires twice in a
    row. *)
Lemma repeat_bound_is_not_maxRepeats :
  ¬ (∀ pre k u post,
       fired_refs (runLoop 1 stubborn (replicate 5 failing_page))
       = pre ++ replicate k u ++ post →
       (Z.of_nat k ≤ 1)%Z).
Proof.
  intros Hall. specialize (Hall [] 2 0 [] eq_refl). lia.
Qed.

(** As a leaf, the copy of a [RegExp] accepts exactly the truthy values:
    what [sup && (... || inclusive({}, sup))] gives. *)
Lemma emptied_accepts_truthy r sup :
  leaf_inclusive (RRegex (emptied r)) sup = truthy sup.
Proof.
  unfold leaf_inclusive. destruct sup as [[s|q]|]; cbn; [| |done].
  - apply andb_true_r.
  - apply orb_true_r.
Qed.

(** As the value expected of a cookie, the copy of a [RegExp] accepts
    whatever truthy value is read under the name of the cookie: a non-empty
    cookie, or the inherited member when the name is one that every object
    inherits. *)
Lemma emptied_cookie r (sup : gmap string string) name :
  cookie_inclusive sup name (RRegex (emptied r))
  = (if String.eqb name "__proto__" then true
     else match sup !! name with
          | Some s => negb (String.eqb s "")
          | None => includes Proto.inherited name
          end).
Proof.
  unfold cookie_inclusive. destruct (String.eqb name "__proto__"); [done|].
  destruct (sup !! name) as [s|]; [apply emptied_accepts_truthy|].
  by destruct (includes Proto.inherited name).
Qed.

(** Under a meta predicate that is not called, at the top of a guard with
    nothing recorded yet or below an operator, the copy of a [RegExp] is
    never tested: [$before] holds and [$after] does not. *)
Lemma emptied_meta_untested r S :
  clause_throws (c_meta meta_before (RRegex (emptied r))) [] = false ∧
  clause_throws (c_meta meta_after (RRegex (emptied r))) [] = false ∧
  clause_applicable (c_meta meta_before (RRegex (emptied r))) S [] = true ∧
  clause_applicable (c_meta meta_after (RRegex (emptied r))) S [] = false.
Proof. repeat split; reflexivity. Qed.

(** The copy keeps the pairs, their ids and their bodies. *)
Lemma deepCopy_shape (workflow : Workflow) :
  length (deepCopy workflow) = length workflow ∧
  id <$> deepCopy workflow = id <$> workflow ∧
  what <$> deepCopy workflow = what <$> workflow.
Proof.
  unfold deepCopy. rewrite length_fmap, <- !list_fmap_compose. done.
Qed.

(** The loop runs on a workflow whose guards hold a [RegExp]: the pair of
    [regexp_guarded] expects a url that its [RegExp] does not accept, and
    fires all the same, since the copy the loop works on holds an empty
    object in its place. *)
Lemma runLoop_regexp_guard_fires :
  re_test ftp_only (live_url page0) = false ∧
  runLoop 3 regexp_guarded [calm_page; calm_page]
  = ([ {| fired := 0; index := 0; events := []; outcome := Done |} ], NoMatch).
Proof. split; reflexivity. Qed.

(** With a [RegExp] under [$after], the matcher throws as soon as a pair
    has been recorded in [usedActions], and the loop ends there. *)
Lemma runLoop_regexp_meta_throws :
  runLoop 3 after_regexp [calm_page; calm_page; calm_page]
  = ([ {| fired := 0; index := 0; events := []; outcome := Done |} ], MatcherThrew).
Proof. reflexivity. Qed.

Lemma iterate_stubborn n last count :
  fired_refs
    (iterate 0 (replicate n failing_page)
       {| workflowCopy := [ {| ref := 0; pair :=
                                 {| id := Some "loop"; where_ := [];
                                    what := [ {| action := "noop"; args := ArgsNone |} ] |} |} ];
          usedActions := []; selectors := [];
          lastAction := last; repeatCount := count |})
  = replicate n 0.
Proof.
  assert (Hbody :
    carryOutSteps {| defined := λ _, true; resolves := λ _, false |} 0
      [ {| action := "noop"; args := ArgsNone |} ]
    = ([ECall [] "noop" []], Threw, 1)) by reflexivity.
  revert last count. induction n as [|n IH]; intros last count; [reflexivity|].
  unfold fired_refs in *. cbn [replicate iterate].
  cbn -[iterate replicate bool_decide carryOutSteps].
  rewrite Hbody.
  specialize (IH (Some 0)
                (if bool_decide (last = Some 0) then S count else 0)).
  destruct (iterate 0 (replicate n failing_page) _) as [fs e].
  cbn [fst] in *. rewrite fmap_cons. cbn [fired]. by rewrite IH.
Qed.

(** C10. With [maxRepeats = 0] the test of the repeat guard is false for
    every repeat count, and a pair that keeps matching fires as often as
    the page keeps answering: for every [n] there is a run with [n]
    consecutive firings of the same pair. *)
Theorem maxRepeats_zero_disables_guard :
  (∀ repeatCount, over_limit 0 repeatCount = false) ∧
  (∀ n, fired_refs (runLoop 0 stubborn (replicate n failing_page)) = replicate n 0).
Proof.
  split; [done|]. intros n. apply iterate_stubborn.
Qed.

End LoopFacts.

(** ** The pagination engine *)

Section PaginationFacts.
Import JS Pagination.
Context {item : Type} (stringify : item → string).

Abbreviation keys := (PaginationSpec.keys stringify).
Abbreviation calm := (PaginationSpec.calm (item := item)).
Abbreviation steady := (PaginationSpec.steady (item := item)).
Abbreviation scraped := (PaginationSpec.scraped (item := item)).

(** *** Computations that leave the results alone *)

Lemma calm_ret {A} (a : A) : calm (ret a).
Proof. by intros v sc. Qed.

Lemma calm_throw {A} : calm (throw (A := A)).
Proof. by intros v sc. Qed.

Lemma calm_stuck {A} : calm (stuck (A := A)).
Proof. by intros v sc. Qed.

Lemma calm_return_allResults {A} : calm (return_allResults (A := A)).
Proof. by intros v sc. Qed.

Lemma calm_bind {A B} (c : M A) (k : A → M B) :
  calm c → (∀ a, calm (k a)) → calm (bind c k).
Proof.
  intros Hc Hk v sc. unfold bind. specialize (Hc v sc).
  destruct (c v sc) as [a v' sc'| | |]; try done.
  specialize (Hk a v' sc'). destruct Hc as [Hr Hs].
  destruct (k a v' sc'); try done; rewrite <- ?Hr, <- ?Hs; done.
Qed.

Lemma calm_try_catch {A} (c h : M A) : calm c → calm h → calm (try_catch c h).
Proof.
  intros Hc Hh v sc. unfold try_catch. specialize (Hc v sc).
  destruct (c v sc) as [|v' sc'| |]; try done.
  specialize (Hh v' sc'). destruct Hc as [Hr Hs].
  destruct (h v' sc'); try done; rewrite <- ?Hr, <- ?Hs; done.
Qed.

Lemma calm_await : calm await.
Proof. intros v [|[] sc]; done. Qed.

Lemma calm_await_num : calm await_num.
Proof. intros v [|[] sc]; done. Qed.

Lemma calm_await_sig : calm await_sig.
Proof. intros v [|[] sc]; done. Qed.

Lemma calm_page_url : calm page_url.
Proof. intros v [|[] sc]; done. Qed.

Lemma calm_get : calm get.
Proof. by intros v sc. Qed.

Lemma calm_set_previousHeight h : calm (set_previousHeight h).
Proof. by intros v sc. Qed.

Lemma calm_set_availableSelectors l : calm (set_availableSelectors l).
Proof. by intros v sc. Qed.

Lemma calm_add_visited u : calm (add_visited u).
Proof. by intros v sc. Qed.

Create HintDb calm discriminated.
#[local] Hint Resolve calm_ret calm_throw calm_stuck calm_return_allResults
  calm_try_catch calm_await calm_await_num calm_await_sig calm_page_url
  calm_get calm_set_previousHeight calm_set_availableSelectors
  calm_add_visited : calm.

Ltac calm_step :=
  first [ solve [auto with calm]
        | apply calm_bind; [|intros ?]
        | apply calm_try_catch
        | match goal with
          | |- calm (if ?b then _ else _) => destruct b
          | |- calm (match ?x with _ => _ end) => destruct x
          end ].

Lemma calm_attempt_selector n : calm (attempt_selector n).
Proof.
  induction n as [|n IH]; simpl; [auto with calm|].
  apply calm_bind; [auto 6 using calm_bind with calm|].
  intros [|]; [auto with calm|].
  destruct n; [auto with calm|]. apply calm_bind; auto with calm.
Qed.

Lemma calm_findWorkingButton_from selectors updated :
  calm (findWorkingButton_from selectors updated).
Proof.
  revert updated.
  induction selectors as [|s l IH]; intros updated; cbn [findWorkingButton_from].
  - auto with calm.
  - apply calm_bind; [apply calm_attempt_selector|].
    intros [|]; auto with calm.
Qed.

Lemma calm_findWorkingButton selectors : calm (findWorkingButton selectors).
Proof. apply calm_findWorkingButton_from. Qed.

Lemma calm_retryOperation operation n :
  calm operation → calm (retryOperation operation n).
Proof.
  intros Hop. induction n as [|n IH]; simpl.
  - auto with calm.
  - apply calm_try_catch; [done|]. apply calm_bind; auto with calm.
Qed.

Lemma calm_forward_operation : calm forward_operation.
Proof.
  unfold forward_operation. repeat calm_step.
Qed.

Lemma calm_next_attempt currentUrl sig : calm (next_attempt currentUrl sig).
Proof.
  unfold next_attempt. repeat calm_step.
Qed.

Lemma calm_next_retries currentUrl sig n : calm (next_retries currentUrl sig n).
Proof.
  induction n as [|n IH]; simpl; [auto with calm|].
  apply calm_bind; [apply calm_next_attempt|].
  intros [|]; [auto with calm|].
  destruct n; [auto with calm|]. apply calm_bind; auto with calm.
Qed.

Lemma calm_loadMore_click n : calm (loadMore_click n).
Proof.
  induction n as [|n IH]; simpl; [auto with calm|].
  apply calm_bind; [repeat calm_step|].
  intros [|].
  - destruct n; repeat calm_step.
  - destruct n; [auto with calm|]. apply calm_bind; auto with calm.
Qed.

Lemma calm_loadMore_find_and_click : calm loadMore_find_and_click.
Proof.
  unfold loadMore_find_and_click.
  apply calm_bind; [auto with calm|]. intros v.
  apply calm_bind; [apply calm_findWorkingButton|]. intros found.
  apply calm_bind; [auto with calm|]. intros _.
  destruct (working found.1); [|auto with calm].
  apply calm_bind; [apply calm_loadMore_click|].
  intros [|]; simpl; auto with calm.
Qed.

(** *** Computations that leave the height alone *)

Lemma steady_ret {A} (a : A) : steady (ret a).
Proof. by intros v sc. Qed.

Lemma steady_return_allResults {A} : steady (return_allResults (A := A)).
Proof. by intros v sc. Qed.

Lemma steady_bind {A B} (c : M A) (k : A → M B) :
  steady c → (∀ a, steady (k a)) → steady (bind c k).
Proof.
  intros Hc Hk v sc. unfold bind. specialize (Hc v sc).
  destruct (c v sc) as [a v' sc'| | |]; try done.
  specialize (Hk a v' sc').
  destruct (k a v' sc'); try done; congruence.
Qed.

Lemma steady_try_catch {A} (c h : M A) :
  steady c → steady h → steady (try_catch c h).
Proof.
  intros Hc Hh v sc. unfold try_catch. specialize (Hc v sc).
  destruct (c v sc) as [|v' sc'| |]; try done.
  specialize (Hh v' sc').
  destruct (h v' sc'); try done; congruence.
Qed.

Lemma steady_await : steady await.
Proof. intros v [|[] sc]; done. Qed.

Lemma steady_get : steady get.
Proof. by intros v sc. Qed.

Lemma steady_set_availableSelectors l : steady (set_availableSelectors l).
Proof. by intros v sc. Qed.

Create HintDb steady discriminated.
#[local] Hint Resolve steady_ret steady_return_allResults steady_bind
  steady_try_catch steady_await steady_get steady_set_availableSelectors : steady.

Lemma steady_attempt_selector n : steady (attempt_selector n).
Proof.
  induction n as [|n IH]; simpl; [auto with steady|].
  apply steady_bind; [auto 6 with steady|].
  intros [|]; [auto with steady|].
  destruct n; [auto with steady|]. apply steady_bind; auto with steady.
Qed.

Lemma steady_findWorkingButton_from selectors updated :
  steady (findWorkingButton_from selectors updated).
Proof.
  revert updated.
  induction selectors as [|s l IH]; intros updated; cbn [findWorkingButton_from].
  - auto with steady.
  - apply steady_bind; [apply steady_attempt_selector|].
    intros [|]; auto with steady.
Qed.

Lemma steady_loadMore_click n : steady (loadMore_click n).
Proof.
  induction n as [|n IH]; simpl; [auto with steady|].
  apply steady_bind; [auto 8 with steady|].
  intros [|].
  - destruct n; auto 8 with steady.
  - destruct n; [auto with steady|]. apply steady_bind; auto with steady.
Qed.

(** Finding the button and clicking it leaves the height last read as it
    is. *)
Lemma steady_loadMore_find_and_click : steady loadMore_find_and_click.
Proof.
  unfold loadMore_find_and_click.
  apply steady_bind; [auto with steady|]. intros v.
  apply steady_bind; [apply steady_findWorkingButton_from|]. intros found.
  apply steady_bind; [auto with steady|]. intros _.
  destruct (working found.1); [|auto with steady].
  apply steady_bind; [apply steady_loadMore_click|].
  intros [|]; simpl; auto with steady.
Qed.

(** *** What [scrapeCurrentPage] and [checkLimit] maintain *)

Lemma fresh_spec results : ∀ seen l new seen',
  NoDup (keys l) →
  (∀ x, x ∈ l → stringify x ∈ seen) →
  fresh stringify results seen = (new, seen') →
  NoDup (keys (l ++ new)) ∧ (∀ x, x ∈ l ++ new → stringify x ∈ seen').
Proof.
  induction results as [|x results IH]; intros seen l new seen' Hnd Hsub; simpl.
  - intros [= <- <-]. by rewrite app_nil_r.
  - case_bool_decide as Hin.
    + by apply IH.
    + destruct (fresh stringify results ({[stringify x]} ∪ seen)) as [l0 s0] eqn:Hf.
      intros [= <- <-].
      replace (l ++ x :: l0) with ((l ++ [x]) ++ l0) by by rewrite <- app_assoc.
      apply (IH ({[stringify x]} ∪ seen)); [| |done].
      * unfold PaginationSpec.keys. rewrite fmap_app. apply NoDup_app. split; [done|].
        split; [|apply NoDup_singleton].
        intros k Hk Hk'. apply list_elem_of_singleton in Hk'. subst k.
        apply list_elem_of_fmap in Hk as (y & Hy & Hyl).
        apply Hin. rewrite Hy. by apply Hsub.
      * intros y Hy. apply elem_of_app in Hy as [Hy|Hy].
        -- apply elem_of_union_r. by apply Hsub.
        -- apply list_elem_of_singleton in Hy. subst y.
           apply elem_of_union_l. by apply elem_of_singleton.
Qed.

(** Items whose keys are all known add nothing. *)
Lemma fresh_known results seen :
  Forall (λ x, stringify x ∈ seen) results →
  fresh stringify results seen = ([], seen).
Proof.
  induction 1 as [|x results Hx _ IH]; simpl; [done|].
  by rewrite bool_decide_true.
Qed.

Section WithConfig.
Variable config : Config.

Abbreviation below := (PaginationSpec.below config).
Abbreviation Dist := (PaginationSpec.Dist stringify).
Abbreviation Inv := (PaginationSpec.Inv stringify config).
Abbreviation Good := (PaginationSpec.Good stringify config).
Abbreviation triple := (PaginationSpec.triple stringify config).

Lemma Inv_Good l s : Inv l s → Good l.
Proof.
  intros [[Hnd _] Hb]. split; [done|].
  intros L HL Hpos. specialize (Hb L HL Hpos). lia.
Qed.

Lemma triple_bind {A B} P (c : M A) (k : A → M B) Q Q' :
  triple P c Q → (∀ a, triple (Q a) (k a) Q') → triple P (bind c k) Q'.
Proof.
  intros Hc Hk v sc HP. unfold bind. specialize (Hc v sc HP).
  destruct (c v sc) as [a v' sc'| | |]; try done.
  by apply Hk.
Qed.

Lemma triple_pre {A} (P P' : list item → gset string → Prop) (c : M A) Q :
  (∀ l s, P l s → P' l s) → triple P' c Q → triple P c Q.
Proof. intros HPP Hc v sc HP. apply Hc. by apply HPP. Qed.

Lemma triple_post {A} P (c : M A) (Q Q' : A → list item → gset string → Prop) :
  (∀ a l s, Q a l s → Q' a l s) → triple P c Q → triple P c Q'.
Proof.
  intros HQQ Hc v sc HP. specialize (Hc v sc HP).
  destruct (c v sc); try done. by apply HQQ.
Qed.

Lemma triple_ret {A} (a : A) (Q : A → list item → gset string → Prop) :
  triple (Q a) (ret a) Q.
Proof. by intros v sc HP. Qed.

Lemma triple_return_allResults {A} (Q : A → list item → gset string → Prop) :
  triple (λ l _, Good l) return_allResults Q.
Proof. by intros v sc HP. Qed.

Lemma triple_get {A} (P : list item → gset string → Prop) (k : Vars → M A) Q :
  (∀ v0, triple (λ l s, P l s ∧ l = allResults v0 ∧ s = scrapedItems v0) (k v0) Q) →
  triple P (bind get k) Q.
Proof. intros Hk v sc HP. unfold bind, get. by apply Hk. Qed.

(** A fact that follows from the precondition may be used. *)
Lemma triple_pure {A} (P : list item → gset string → Prop) (φ : Prop) (c : M A) Q :
  (∀ l s, P l s → φ) → (φ → triple P c Q) → triple P c Q.
Proof. intros HPφ Hc v sc HP. apply Hc; [by eapply HPφ|done]. Qed.

(** The length of [allResults] can be named. *)
Lemma triple_length {A} (P : list item → gset string → Prop) (c : M A) Q :
  (∀ n, triple (λ l s, P l s ∧ length l = n) c Q) → triple P c Q.
Proof. intros Hc v sc HP. by apply (Hc (length (allResults v))). Qed.

(** A calm computation keeps whatever implies the invariant. *)
Lemma triple_calm {A} (P : list item → gset string → Prop) (c : M A) :
  (∀ l s, P l s → Inv l s) → calm c → triple P c (λ _, P).
Proof.
  intros HPI Hc v sc HP. specialize (Hc v sc).
  destruct (c v sc) as [a v' sc'|v' sc'|r sc'|].
  - destruct Hc as [-> ->]. done.
  - destruct Hc as [-> ->]. by apply HPI.
  - subst r. eapply Inv_Good. by apply HPI.
  - done.
Qed.

Lemma triple_scrapeCurrentPage n :
  triple (λ l s, Inv l s ∧ length l = n) (scrapeCurrentPage stringify)
    (λ _ l s, Dist l s ∧ n ≤ length l ∧ (length l = n → below n)).
Proof.
  intros v sc [[[Hnd Hsub] Hb] Hn]. unfold scrapeCurrentPage, bind, await_items.
  destruct sc as [|[| | | |items|] sc]; try done.
  unfold get, put.
  destruct (fresh stringify items (scrapedItems v)) as [new seen] eqn:Hf. simpl.
  destruct (fresh_spec _ _ _ _ _ Hnd Hsub Hf) as [Hnd' Hsub'].
  split; [done|]. rewrite length_app. split; [lia|].
  intros _. by rewrite <- Hn.
Qed.

Lemma limit_not_reached n : limit_reached (limit config) n = false → below n.
Proof.
  unfold limit_reached, below. intros Hr L HL Hpos. rewrite HL in Hr.
  destruct (Z.eqb_spec L 0); [lia|]. simpl in Hr. apply Z.leb_gt in Hr. lia.
Qed.

Lemma Good_slice0 l s :
  Dist l s → limit_reached (limit config) (length l) = true →
  Good (slice0 l (default 0%Z (limit config))).
Proof.
  intros [Hnd _] Hr. unfold slice0. split.
  - unfold PaginationSpec.keys.
    destruct (Z.ltb _ _); rewrite fmap_take;
      (eapply sublist_NoDup; [done|apply sublist_take]).
  - intros L HL Hpos. rewrite HL. simpl.
    destruct (Z.ltb_spec L 0); [lia|].
    rewrite length_take. lia.
Qed.

Lemma triple_checkLimit n :
  triple (λ l s, Dist l s ∧ length l = n) (checkLimit config)
    (λ reached l s, if reached then Good l
                    else Inv l s ∧ length l = n).
Proof.
  intros v sc [Hd Hn]. unfold checkLimit, bind, get.
  destruct (limit_reached (limit config) (length (allResults v))) eqn:Hr; simpl.
  - by eapply Good_slice0.
  - split; [|done]. split; [done|]. by apply limit_not_reached.
Qed.

(** [scrapeCurrentPage] followed by [checkLimit], as [clickNext] and
    [clickLoadMore] start. *)
Lemma triple_scrape_check {A} (k : bool → M A)
    (Q : A → list item → gset string → Prop) :
  (∀ reached : bool,
      triple (λ l s, if reached then Good l else Inv l s) (k reached) Q) →
  triple Inv
    (bind (scrapeCurrentPage stringify) (λ _, bind (checkLimit config) k)) Q.
Proof.
  intros Hk. apply triple_length. intros n.
  eapply triple_bind; [apply triple_scrapeCurrentPage|]. intros ?.
  apply triple_length. intros n'.
  eapply triple_bind; [|apply Hk].
  eapply triple_post; [|eapply triple_pre; [|apply (triple_checkLimit n')]].
  - intros [|] l s; [done|]. by intros [? ?].
  - intros l s [(Hd & Hle & Hb) Hn']. done.
Qed.

(** *** The strategies that scrape page by page *)

Lemma calm_clickNext_rest (currentUrl : string) :
  calm
    (bind get (λ v,
     bind (findWorkingButton (availableSelectors v)) (λ found,
     bind (set_availableSelectors found.2) (λ _,
       match working found.1 with
       | None =>
           bind (retryOperation forward_operation MAX_RETRIES) (λ success,
             if negb success then return_allResults else ret true)
       | Some _ =>
           bind await_sig (λ beforeSignature,
           bind (next_retries currentUrl beforeSignature MAX_RETRIES)
             (λ paginationSuccess,
                if negb paginationSuccess then return_allResults else ret true))
       end)))).
Proof.
  apply calm_bind; [apply calm_get|]. intros v.
  apply calm_bind; [apply calm_findWorkingButton|]. intros found.
  apply calm_bind; [apply calm_set_availableSelectors|]. intros ?.
  destruct (working found.1).
  - apply calm_bind; [apply calm_await_sig|]. intros sig.
    apply calm_bind; [apply calm_next_retries|].
    intros [|]; simpl; auto with calm.
  - apply calm_bind; [apply calm_retryOperation, calm_forward_operation|].
    intros [|]; simpl; auto with calm.
Qed.

Lemma triple_clickNext fuel :
  ptype config = clickNext →
  triple Inv (strategy stringify config fuel) (λ _, Inv).
Proof.
  intros Ht. unfold strategy. rewrite Ht.
  eapply triple_bind; [apply (triple_calm Inv); [done|apply calm_page_url]|].
  intros currentUrl.
  eapply triple_bind; [apply (triple_calm Inv); [done|apply calm_add_visited]|].
  intros ?.
  apply triple_scrape_check. intros [|].
  - apply triple_return_allResults.
  - apply (triple_calm Inv); [done|apply calm_clickNext_rest].
Qed.

Lemma triple_after_click prc nnc :
  triple (λ l s, Inv l s ∧ length l = prc)
    (loadMore_after_click stringify config prc nnc)
    (λ next l s, Inv l s ∧ length l = next.1).
Proof.
  unfold loadMore_after_click.
  set (P := λ (l : list item) (s : gset string), Inv l s ∧ length l = prc).
  assert (HP : ∀ l s, P l s → Inv l s) by (by intros l s [? ?]).
  eapply triple_bind; [apply (triple_calm P); [done|apply calm_await]|]. intros ?.
  eapply triple_bind; [apply (triple_calm P); [done|apply calm_await]|]. intros ?.
  eapply triple_bind; [apply (triple_calm P); [done|apply calm_await]|]. intros ?.
  eapply triple_bind; [apply (triple_calm P); [done|apply calm_await_num]|].
  intros currentHeight.
  apply triple_get. intros v.
  eapply triple_bind.
  { eapply triple_pre; [|apply (triple_calm P); [done|apply calm_set_previousHeight]].
    by intros l s [? ?]. }
  intros ?.
  eapply triple_bind; [apply triple_scrapeCurrentPage|]. intros ?.
  apply triple_get. intros v'.
  apply (triple_pure _ (prc ≤ length (allResults v')
                        ∧ (length (allResults v') = prc → below prc))).
  { intros l s ((Hd & Hle & Hb) & -> & ->). done. }
  intros [Hle Hb].
  destruct (Nat.ltb_spec prc (length (allResults v'))) as [Hnew|Hnew];
    cbn [negb andb].
  - (* new items were added *)
    eapply triple_bind.
    { eapply triple_pre; [|apply (triple_checkLimit (length (allResults v')))].
      intros l s ((Hd & ? & ?) & -> & ->). done. }
    intros [|].
    + apply triple_return_allResults.
    + destruct (negb (negb (currentHeight =? previousHeight v)%Z)).
      * eapply triple_pre; [|apply triple_return_allResults].
        intros l s [Hi ?]. by eapply Inv_Good.
      * eapply triple_pre; [|apply triple_ret].
        simpl. tauto.
  - (* no new item *)
    assert (Hlen : length (allResults v') = prc) by lia.
    destruct (Nat.leb MAX_NO_NEW_ITEMS (S nnc)).
    + eapply triple_pre; [|apply triple_return_allResults].
      intros l s ((Hd & ? & ?) & -> & ->). split; [apply Hd|].
      intros L HL Hpos. specialize (Hb Hlen L HL Hpos). lia.
    + eapply triple_bind.
      { eapply triple_pre; [|apply (triple_checkLimit prc)].
        intros l s ((Hd & ? & ?) & -> & ->). done. }
      intros [|].
      * apply triple_return_allResults.
      * destruct (negb (negb (currentHeight =? previousHeight v)%Z)).
        -- eapply triple_pre; [|apply triple_return_allResults].
           intros l s [Hi ?]. by eapply Inv_Good.
        -- eapply triple_pre; [|apply triple_ret]. simpl. tauto.
Qed.

Lemma triple_loadMore_loop fuel : ∀ prc nnc,
  triple (λ l s, Inv l s ∧ length l = prc)
    (loadMore_loop stringify config fuel prc nnc) (λ _ _ _, False).
Proof.
  induction fuel as [|fuel IH]; intros prc nnc; cbn [loadMore_loop].
  - by intros v sc HP.
  - eapply triple_bind.
    { apply (triple_calm (λ l s, Inv l s ∧ length l = prc));
        [by intros l s [? ?]|apply calm_loadMore_find_and_click]. }
    intros ?.
    eapply triple_bind; [apply triple_after_click|].
    intros next. apply IH.
Qed.

Lemma triple_clickLoadMore fuel :
  ptype config = clickLoadMore →
  triple Inv (strategy stringify config fuel) (λ _, Inv).
Proof.
  intros Ht. unfold strategy. rewrite Ht.
  apply triple_scrape_check. intros [|].
  - apply triple_return_allResults.
  - apply triple_get. intros v.
    eapply triple_bind.
    { eapply triple_pre; [|apply triple_loadMore_loop].
      intros l s (Hi & -> & ?). done. }
    intros ?. by intros v' sc' HP.
Qed.

Lemma triple_paginate fuel :
  ptype config = clickNext ∨ ptype config = clickLoadMore →
  triple Inv (paginate stringify config fuel) (λ _ _ _, False).
Proof.
  intros Ht. induction fuel as [|fuel IH]; cbn [paginate].
  - by intros v sc HP.
  - eapply triple_bind.
    { destruct Ht; [by apply triple_clickNext|by apply triple_clickLoadMore]. }
    intros ?. apply triple_length. intros n.
    eapply triple_bind.
    { eapply triple_pre; [|apply (triple_checkLimit n)].
      by intros l s [[? ?] ?]. }
    intros [|].
    + apply triple_return_allResults.
    + eapply triple_pre; [|apply IH]. by intros l s [? ?].
Qed.

(** The [default] case scrapes once and returns; no limit is applied, so it
    is judged against a configuration without limit. *)
Lemma triple_other config' fuel :
  limit config = None → ptype config' = other →
  triple Inv (paginate stringify config' fuel) (λ _ _ _, False).
Proof.
  intros Hl Ht. destruct fuel as [|fuel]; cbn [paginate].
  - by intros v sc HP.
  - eapply (triple_bind _ _ _ (λ _ _ _, False)); [|intros ? v sc HF; destruct HF].
    unfold strategy. rewrite Ht.
    apply triple_length. intros n.
    eapply triple_bind; [apply triple_scrapeCurrentPage|]. intros ?.
    eapply (triple_pre _ _ _ (λ _ _ _, False)); [|apply triple_return_allResults].
    intros l s ([Hnd ?] & ? & ?). split; [done|]. intros L HL. congruence.
Qed.

End WithConfig.

(** [Good] spelled out for [handlePagination]. *)
Lemma handlePagination_good config fuel script r rest :
  ptype config = clickNext ∨ ptype config = clickLoadMore →
  handlePagination stringify config fuel script = Some (r, rest) →
  PaginationSpec.Good stringify config r.
Proof.
  intros Ht. unfold handlePagination.
  match goal with
  | |- context [paginate stringify config fuel ?v0 script] =>
      pose proof (triple_paginate config fuel Ht v0 script) as Hp
  end.
  simpl in Hp.
  assert (Hinv : PaginationSpec.Inv stringify config ([] : list item) ∅).
  { split; [split|].
    - constructor.
    - intros x Hx. by apply elem_of_nil in Hx.
    - intros L _ Hpos. simpl. lia. }
  specialize (Hp Hinv).
  destruct (paginate _ _ _ _ _) as [a v sc|v sc|r' sc|]; try done.
  - intros [= <- <-]. by eapply Inv_Good.
  - by intros [= <- <-].
Qed.

Lemma handlePagination_other config fuel script r rest :
  ptype config = other →
  handlePagination stringify config fuel script = Some (r, rest) →
  NoDup (keys r).
Proof.
  intros Ht. unfold handlePagination.
  set (nolimit := {| limit := None; ptype := other; selector := "" |}).
  match goal with
  | |- context [paginate stringify config fuel ?v0 script] =>
      pose proof (triple_other nolimit config fuel eq_refl Ht v0 script) as Hp
  end.
  simpl in Hp.
  assert (Hinv : PaginationSpec.Inv stringify nolimit ([] : list item) ∅).
  { split; [split|].
    - constructor.
    - intros x Hx. by apply elem_of_nil in Hx.
    - intros L [=]. }
  specialize (Hp Hinv).
  destruct (paginate _ _ _ _ _) as [a v sc|v sc|r' sc|]; try done.
  - intros [= <- <-]. apply Hp.
  - intros [= <- <-]. apply Hp.
Qed.

(** C4, as the code has it. For the strategies that scrape page by page
    ([clickNext], [clickLoadMore]) the list handed to the serializable
    callback has pairwise distinct items under [JSON.stringify] and, when a
    positive limit [L] is configured, at most [L] items.  With no
    pagination strategy (the [default] case) the items are pairwise
    distinct. *)
Theorem pagination_limit_and_distinct
    (config : Config) (fuel : nat) (script : list Resp)
    (r : list item) (rest : list Resp) :
  handlePagination stringify config fuel script = Some (r, rest) →
  (ptype config = clickNext ∨ ptype config = clickLoadMore →
   NoDup (stringify <$> r) ∧
   ∀ L, limit config = Some L → (0 < L)%Z → (Z.of_nat (length r) ≤ L)%Z) ∧
  (ptype config = other → NoDup (stringify <$> r)).
Proof.
  intros Hrun. split.
  - intros Ht. by apply (handlePagination_good config fuel script r rest).
  - intros Ht. by apply (handlePagination_other config fuel script r rest).
Qed.

(** *** When [clickLoadMore] stops *)

Lemma bind_val {A B} (c : M (item := item) A) (k : A → M B) v sc a v' sc' :
  c v sc = Val a v' sc' → bind c k v sc = k a v' sc'.
Proof. intros Hc. unfold bind. by rewrite Hc. Qed.

Lemma await_ok (r : Resp (item := item)) v sc :
  r ≠ RThrow → await v (r :: sc) = Val () v sc.
Proof. by destruct r. Qed.

(** The second half of the loop body, run on a page that answers every
    wait, reports the height [h] and yields [items]. *)
Lemma loadMore_after_click_eq config prc nnc v (r1 r2 r3 : Resp) h items rest :
  r1 ≠ RThrow → r2 ≠ RThrow → r3 ≠ RThrow →
  loadMore_after_click stringify config prc nnc v
    (r1 :: r2 :: r3 :: RNum h :: RItems items :: rest)
  = let v' := scraped v h (fresh stringify items (scrapedItems v)).1
                (fresh stringify items (scrapedItems v)).2 in
    let n := length (allResults v') in
    if negb (Nat.ltb prc n) && Nat.leb MAX_NO_NEW_ITEMS (S nnc)
    then Return (allResults v') rest
    else if limit_reached (limit config) n
    then Return (slice0 (allResults v') (default 0%Z (limit config))) rest
    else if negb (negb (h =? previousHeight v)%Z)
    then Return (allResults v') rest
    else if Nat.ltb prc n then Val (n, 0) v' rest
    else Val (prc, S nnc) v' rest.
Proof.
  intros H1 H2 H3. unfold loadMore_after_click.
  rewrite (bind_val _ _ _ _ _ _ _ (await_ok r1 _ _ H1)).
  rewrite (bind_val _ _ _ _ _ _ _ (await_ok r2 _ _ H2)).
  rewrite (bind_val _ _ _ _ _ _ _ (await_ok r3 _ _ H3)).
  unfold bind, await_num, get, set_previousHeight, scrapeCurrentPage, await_items,
    checkLimit, put, bind, get, return_allResults, ret, scraped.
  cbn [allResults previousHeight scrapedItems visitedUrls availableSelectors].
  destruct (fresh stringify items (scrapedItems v)) as [new seen].
  cbn [fst snd allResults previousHeight scrapedItems visitedUrls availableSelectors].
  destruct (negb (Nat.ltb prc _) && _); [done|].
  destruct (limit_reached _ _); [done|].
  destruct (negb (negb _)); [done|].
  by destruct (Nat.ltb prc _).
Qed.

(** A pass of the loop that goes on has recorded the height it read. *)
Lemma loadMore_after_click_height config prc nnc v (r1 r2 r3 : Resp) h items rest
    next v' sc' :
  r1 ≠ RThrow → r2 ≠ RThrow → r3 ≠ RThrow →
  loadMore_after_click stringify config prc nnc v
    (r1 :: r2 :: r3 :: RNum h :: RItems items :: rest)
  = Val next v' sc' →
  previousHeight v' = h ∧ sc' = rest.
Proof.
  intros H1 H2 H3. rewrite loadMore_after_click_eq by done. cbv zeta.
  repeat match goal with
         | |- (if ?b then _ else _) = _ → _ => destruct b
         end; try discriminate; by intros [= _ <- <-].
Qed.


End PaginationFacts.

(** *** Concrete runs, with strings as items and the identity as
    serialization *)

Section PaginationRuns.
Import JS Pagination Samples.

Lemma pagination_limit_and_distinct_witness :
  handlePagination string_key next_config 5 next_script = Some (["a"; "b"; "c"], [ROk]) ∧
  NoDup (string_key <$> ["a"; "b"; "c"]) ∧
  (∀ L, Some 3%Z = Some L → (0 < L)%Z → (Z.of_nat 3 ≤ L)%Z).
Proof.
  split; [reflexivity|].
  apply (proj1 (pagination_limit_and_distinct string_key next_config 5 next_script
                  ["a"; "b"; "c"] [ROk] eq_refl)).
  by left.
Defined.

(** C4 as stated fails for the scrolling strategies: when the scroll
    height stops changing, the list of the final extraction is returned as
    the page gave it, here with the same record twice. *)
Lemma scrollDown_delivers_duplicates :
  handlePagination string_key
    {| limit := Some 5%Z; ptype := scrollDown; selector := "" |} 5
    [ ROk; ROk; RNum 1200; ROk; ROk; RNum 1200; RItems ["a"; "a"] ]
  = Some (["a"; "a"], []) ∧
  ¬ NoDup (string_key <$> ["a"; "a"]).
Proof.
  split; [reflexivity|].
  intros Hnd. apply NoDup_cons in Hnd as [Hnotin _]. apply Hnotin. left.
Qed.

(** The scrolling strategies and the [default] case do not apply the
    limit either. *)
Lemma scrollDown_ignores_limit :
  handlePagination string_key
    {| limit := Some 1%Z; ptype := scrollDown; selector := "" |} 5
    [ ROk; ROk; RNum 1200; ROk; ROk; RNum 1200; RItems ["a"; "b"] ]
  = Some (["a"; "b"], []).
Proof. reflexivity. Qed.

Lemma default_ignores_limit :
  handlePagination string_key
    {| limit := Some 1%Z; ptype := other; selector := "" |} 5
    [ RItems ["a"; "b"; "a"] ]
  = Some (["a"; "b"], []).
Proof. reflexivity. Qed.


(** The scenario of the specification: two clicks in a row that bring
    nothing new end the run with the accumulated list. *)
Lemma loadMore_saturation :
  handlePagination string_key more_config 5
    ([RItems ["a"; "b"]] ++ pass 900 ["a"; "b"] ++ pass 1800 ["b"] ++ [ROk; ROk])
  = Some (["a"; "b"], [ROk; ROk]).
Proof. reflexivity. Qed.

End PaginationRuns.

(* ===================================================================== *)
(** * Further properties *)
(* ===================================================================== *)

(** ** The leaves of a guard *)

Section LeafFacts.
Import JS Proto Guard Extract.

Lemma strict_eq_refl v : strict_eq (Some v) (Some v) = true.
Proof. destruct v; simpl; [apply String.eqb_refl|apply Nat.eqb_refl]. Qed.

Lemma leaf_inclusive_string v s :
  leaf_inclusive v (Some (RStr s)) = true ↔ s ≠ "" ∧ testRegexString v s = true.
Proof.
  unfold leaf_inclusive, truthy. rewrite andb_true_iff, negb_true_iff.
  destruct (String.eqb_spec s "") as [->|Hs].
  - split; [intros [[=] _]|intros [[] _]; done].
  - destruct v as [t|r]; simpl.
    + rewrite orb_false_r. split; [intros [_ Ht]|intros [_ Ht]]; done.
    + split; intros [_ Ht]; done.
Qed.

Lemma proper_not_proto k :
  includes inherited k = false → String.eqb k "__proto__" = false.
Proof.
  intros Hk. destruct (String.eqb_spec k "__proto__") as [->|]; [|done].
  vm_compute in Hk. discriminate.
Qed.

(** For a name that no object inherits, the entry of the guard is tested
    against the cookie of that name, [undefined] when there is none. *)
Lemma cookie_inclusive_proper sup name v :
  includes inherited name = false →
  cookie_inclusive sup name v = leaf_inclusive v (RStr <$> sup !! name).
Proof.
  intros Hname. unfold cookie_inclusive.
  rewrite (proper_not_proto _ Hname), Hname. by destruct (sup !! name).
Qed.

(** Under an inherited name the test does not look at the cookies as one
    would expect: without a cookie [constructor], a [RegExp] expected under
    that name is tested against the text of the function [Object]; and
    under [__proto__] no string is ever accepted, whether or not there is
    such a cookie. *)
Lemma cookies_inherited_names (sup : gmap string string) (r : RegExp) (s : string) :
  (sup !! "constructor" = None →
   cookie_inclusive sup "constructor" (RRegex r)
   = re_test r "function Object() { [native code] }") ∧
  cookie_inclusive sup "__proto__" (RStr s) = false.
Proof.
  split; [|reflexivity]. intros Hno. unfold cookie_inclusive.
  cbn [String.eqb Ascii.eqb Bool.eqb]. by rewrite Hno.
Qed.

(** The [cookies] clause of a guard that names no inherited property holds
    exactly when every cookie it names is present in the state with a
    non-empty value that equals the expected string, or passes the expected
    regular expression.  A missing cookie and a cookie whose value is the
    empty string both make the clause fail, whatever is expected. *)
Theorem cookies_clause_matches
    (cs : list (string * RegexableString)) (S : PageState) (H : list string) :
  (∀ name v, (name, v) ∈ cs → includes inherited name = false) →
  clause_applicable (c_cookies cs) S H = true ↔
  ∀ name v, (name, v) ∈ cs →
    ∃ s, cookies S !! name = Some s ∧ s ≠ "" ∧ testRegexString v s = true.
Proof.
  intros Hproper. cbn [clause_applicable]. unfold cookies_inclusive.
  rewrite forallb_forall. split.
  - intros Hall name v Hin. pose proof (Hproper _ _ Hin) as Hname.
    apply list_elem_of_In in Hin.
    specialize (Hall _ Hin). cbn beta iota in Hall.
    rewrite (cookie_inclusive_proper _ _ _ Hname) in Hall.
    destruct (cookies S !! name) as [s|]; [|done].
    apply leaf_inclusive_string in Hall. eauto.
  - intros Hall [name v] Hin. apply list_elem_of_In in Hin.
    rewrite (cookie_inclusive_proper _ _ _ (Hproper _ _ Hin)).
    destruct (Hall _ _ Hin) as (s & -> & Hs & Ht).
    by apply leaf_inclusive_string.
Qed.

Lemma url_clause_needs_url v S H :
  clause_applicable (c_url v) S H = true → truthy (url S) = true.
Proof. cbn [clause_applicable]. unfold leaf_inclusive. by intros [? _]%andb_true_iff. Qed.


(** The [url] clause of the last pair of the workflow copy holds on every
    state extracted with that copy, whatever the live url is, as soon as
    the expected url is neither the empty string nor ["about:blank"]: the
    extractor reports the expected url itself. *)
Theorem last_pair_url_guard_holds
    (pg : PageObs) (W : Workflow) (sel H : list string)
    (action : Pair) (v : RegexableString) :
  last W = Some action →
  where_url (where_ action) = Some v →
  v ≠ RStr "" → v ≠ RStr "about:blank" →
  clause_applicable (c_url v) (getState pg W sel) H = true.
Proof.
  intros Hlast Hurl Hne Hblank.
  cbn [clause_applicable]. unfold getState, state_url. cbn [url].
  rewrite Hlast, Hurl.
  assert (Hb : strict_eq (Some v) (Some (RStr "about:blank")) = false).
  { apply strict_eq_str_false. congruence. }
  rewrite Hb.
  assert (Hself : leaf_inclusive v (Some v) = true).
  { unfold leaf_inclusive. rewrite strict_eq_refl, orb_true_l, andb_true_r.
    destruct v as [s|r]; simpl; [|done].
    destruct (String.eqb_spec s ""); [congruence|done]. }
  destruct (strict_eq (Some v) (Some (RStr (live_url pg)))) eqn:E; simpl; [|done].
  apply strict_eq_str in E. by rewrite <- E.
Qed.

(** [$not] with a plain object negates the object read as a guard, against
    the empty history; [$not] with an array does not look into the array:
    it holds exactly when the array has an element. *)
Theorem not_clause_forms
    (w : Where) (ws : list Where) (S : PageState) (H : list string) :
  clause_applicable (c_op_obj op_not w) S H = negb (applicable w S []) ∧
  (clause_applicable (c_op op_not ws) S H = true ↔ ws ≠ []).
Proof.
  split; [reflexivity|]. cbn [clause_applicable].
  destruct ws; simpl; split; done.
Qed.

End LeafFacts.

Section LeafWitnesses.
Import JS Guard Extract Samples.


Lemma cookies_clause_matches_witness :
  clause_applicable (c_cookies [("session", RStr "abc")])
    {| url := None; cookies := {["session" := "abc"]}; Guard.selectors := [] |} []
  = true.
Proof.
  refine (proj2 (cookies_clause_matches [("session", RStr "abc")]
                   {| url := None; cookies := {["session" := "abc"]};
                      Guard.selectors := [] |} [] _) _).
  - intros name v Hin. apply list_elem_of_singleton in Hin.
    injection Hin as -> ->. reflexivity.
  - intros name v Hin. apply list_elem_of_singleton in Hin.
    injection Hin as -> ->. exists "abc".
    split; [reflexivity|]. split; [discriminate|reflexivity].
Defined.

Lemma last_pair_url_guard_holds_witness :
  clause_applicable (c_url (RStr "https://example.com/start"))
    (getState page0 recorded []) [] = true.
Proof.
  apply (last_pair_url_guard_holds page0 recorded [] []
           {| id := Some "b"; where_ := [c_url (RStr "https://example.com/start")];
              what := [] |}
           (RStr "https://example.com/start") eq_refl eq_refl);
    discriminate.
Defined.

End LeafWitnesses.

(** ** The bookkeeping of selectors *)

Section SelectorFacts.
Import JS Guard Extract Shadow.

Lemma fold_set_add l : ∀ acc,
  NoDup acc →
  NoDup (fold_left set_add l acc) ∧
  ∀ s, s ∈ fold_left set_add l acc ↔ s ∈ acc ∨ s ∈ l.
Proof.
  induction l as [|x l IH]; intros acc Hnd; cbn [fold_left].
  - split; [done|]. intros s. rewrite elem_of_nil. tauto.
  - unfold set_add at 2 4. destruct (includes acc x) eqn:Hi.
    + destruct (IH acc Hnd) as [Hnd' Hel]. split; [done|].
      intros s. rewrite Hel, elem_of_cons.
      apply includes_elem_of in Hi. split; [tauto|].
      intros [?|[->|?]]; auto.
    + assert (x ∉ acc) as Hx.
      { intros Hin. apply includes_elem_of in Hin. congruence. }
      destruct (IH (acc ++ [x])) as [Hnd' Hel].
      { apply NoDup_app. split; [done|]. split; [|apply NoDup_singleton].
        intros y Hy Hy'. apply list_elem_of_singleton in Hy'. by subst. }
      split; [done|]. intros s.
      rewrite Hel, elem_of_app, list_elem_of_singleton, elem_of_cons. tauto.
Qed.

Lemma getSelectors_from_spec W n :
  n ≤ length W →
  NoDup (getSelectors_from W n) ∧
  ((getSelectors_from W n = [] ∧
    ∀ j q, j < n → W !! j = Some q →
           where_selectors (where_ q) = None ∨ where_selectors (where_ q) = Some [])
   ∨
   (∃ i p G, i < n ∧ W !! i = Some p ∧ where_selectors (where_ p) = Some G ∧ G ≠ [] ∧
      (∀ j q, i < j → j < n → W !! j = Some q →
              where_selectors (where_ q) = None ∨ where_selectors (where_ q) = Some []) ∧
      ∀ s, s ∈ getSelectors_from W n ↔ s ∈ G)).
Proof.
  induction n as [|n IH]; intros Hn; cbn [getSelectors_from].
  - split; [constructor|]. left. split; [done|]. intros; lia.
  - destruct (W !! n) as [p|] eqn:Hp; [|apply lookup_ge_None in Hp; lia].
    cbn [fmap option_fmap option_map].
    destruct (IH ltac:(lia)) as [Hnd Hcases].
    assert (Hskip :
      (where_selectors (where_ p) = None ∨ where_selectors (where_ p) = Some []) →
      NoDup (getSelectors_from W n) ∧
      ((getSelectors_from W n = [] ∧
        ∀ j q, j < S n → W !! j = Some q →
           where_selectors (where_ q) = None ∨ where_selectors (where_ q) = Some [])
       ∨
       (∃ i p G, i < S n ∧ W !! i = Some p ∧ where_selectors (where_ p) = Some G ∧
          G ≠ [] ∧
          (∀ j q, i < j → j < S n → W !! j = Some q →
              where_selectors (where_ q) = None ∨ where_selectors (where_ q) = Some []) ∧
          ∀ s, s ∈ getSelectors_from W n ↔ s ∈ G))).
    { intros Hempty. split; [done|].
      destruct Hcases as [[Hnil Hall]|(i & q & G & Hi & Hq & HG & HGne & Hlater & Hel)].
      - left. split; [done|]. intros j q Hj Hjq.
        destruct (decide (j = n)) as [->|]; [congruence|].
        apply (Hall j q); [lia|done].
      - right. exists i, q, G. repeat split; try done; [lia| |apply Hel|apply Hel].
        intros j r Hij Hj Hjr.
        destruct (decide (j = n)) as [->|]; [congruence|].
        apply (Hlater j r); [done|lia|done]. }
    destruct (where_selectors (where_ p)) as [[|x G]|] eqn:HG; [by auto|..|by auto].
    unfold array_from_set.
    destruct (fold_set_add (x :: G) [] (NoDup_nil_2)) as [Hnd' Hel].
    split; [done|]. right. exists n, p, (x :: G).
    repeat split; try done; [lia|intros; lia|..].
    + intros Hs. apply Hel in Hs as [Hs|Hs]; [by apply elem_of_nil in Hs|done].
    + intros Hs. apply Hel. by right.
Qed.

(** [getSelectors] gives the selectors of the last pair whose guard has a
    non-empty [selectors] list, each one once, and nothing from any other
    pair; it gives the empty list exactly when no pair has such a list. *)
Theorem getSelectors_last_nonempty (W : Workflow) :
  NoDup (getSelectors W) ∧
  ((getSelectors W = [] ∧
    ∀ j q, W !! j = Some q →
           where_selectors (where_ q) = None ∨ where_selectors (where_ q) = Some [])
   ∨
   (∃ i p G, W !! i = Some p ∧ where_selectors (where_ p) = Some G ∧ G ≠ [] ∧
      (∀ j q, i < j → W !! j = Some q →
              where_selectors (where_ q) = None ∨ where_selectors (where_ q) = Some []) ∧
      ∀ s, s ∈ getSelectors W ↔ s ∈ G)).
Proof.
  unfold getSelectors.
  destruct (getSelectors_from_spec W (length W) (le_n _)) as [Hnd Hcases].
  split; [done|].
  destruct Hcases as [[Hnil Hall]|(i & p & G & Hi & Hp & HG & HGne & Hlater & Hel)].
  - left. split; [done|]. intros j q Hjq. apply (Hall j q); [|done].
    by apply lookup_lt_Some in Hjq.
  - right. exists i, p, G. repeat split; try done; [|apply Hel|apply Hel].
    intros j q Hij Hjq. apply (Hlater j q); [done| |done].
    by apply lookup_lt_Some in Hjq.
Qed.

Lemma prefix_of_includes p s : prefix_of p s = true → str_includes s p = true.
Proof. intros Hp. destruct s; simpl; by rewrite Hp. Qed.

(** A selector that holds [:>>] holds [>>]. *)
Lemma includes_frame_includes_shadow s :
  str_includes s ":>>" = true → str_includes s ">>" = true.
Proof.
  induction s as [|a s IH]; [done|].
  cbn [str_includes]. rewrite !orb_true_iff. intros [Hp|Hs].
  - right. apply prefix_of_includes. cbn [prefix_of] in Hp.
    by apply andb_true_iff in Hp as [_ Hp].
  - right. by apply IH.
Qed.

Lemma special_shadow s : special s = str_includes s ">>".
Proof.
  unfold special. destruct (str_includes s ":>>") eqn:E; [|done].
  by rewrite (includes_frame_includes_shadow s E).
Qed.

(** [removeShadowSelectors] and [removeSpecialSelectors] are the same
    function: the test for [:>>] in the latter adds nothing to the test for
    [>>]. *)
Theorem removeShadowSelectors_removeSpecialSelectors (W : Workflow) :
  removeShadowSelectors W = removeSpecialSelectors W.
Proof.
  unfold removeShadowSelectors, removeSpecialSelectors.
  apply list_fmap_ext. intros _ step _. f_equal.
  apply list_fmap_ext. intros _ c _.
  destruct c; try done. cbn [strip_shadow_clause strip_clause]. f_equal.
  induction G as [|s G IH]; [done|]. cbn [List.filter].
  by rewrite IH, special_shadow.
Qed.

Lemma filter_filter_same {A} (f : A → bool) l :
  List.filter f (List.filter f l) = List.filter f l.
Proof.
  induction l as [|x l IH]; [done|]. simpl.
  destruct (f x) eqn:E; simpl; [by rewrite E, IH|done].
Qed.

Lemma strip_clause_idem c : strip_clause (strip_clause c) = strip_clause c.
Proof. destruct c; try done. simpl. by rewrite filter_filter_same. Qed.

(** After [removeSpecialSelectors] no [selectors] list at the top of a guard
    holds a selector with [>>]; the pairs keep their number, their ids and
    their bodies; applying the function again changes nothing. *)
Theorem removeSpecialSelectors_clean (W : Workflow) :
  (∀ p G s, p ∈ removeSpecialSelectors W → c_selectors G ∈ where_ p → s ∈ G →
            str_includes s ">>" = false) ∧
  id <$> removeSpecialSelectors W = id <$> W ∧
  what <$> removeSpecialSelectors W = what <$> W ∧
  removeSpecialSelectors (removeSpecialSelectors W) = removeSpecialSelectors W.
Proof.
  unfold removeSpecialSelectors. repeat split.
  - intros p G s Hp HG Hs.
    apply list_elem_of_fmap in Hp as (step & -> & _). cbn [where_] in HG.
    apply list_elem_of_fmap in HG as (c & Hc & _).
    destruct c; try done. cbn [strip_clause] in Hc. injection Hc as ->.
    apply list_elem_of_In, filter_In in Hs as [_ Hs].
    rewrite special_shadow in Hs. by apply negb_true_iff in Hs.
  - rewrite <- list_fmap_compose. by apply list_fmap_ext.
  - rewrite <- list_fmap_compose. by apply list_fmap_ext.
  - rewrite <- list_fmap_compose. apply list_fmap_ext. intros _ step _.
    cbn [compose id where_ what]. f_equal.
    rewrite <- list_fmap_compose. apply list_fmap_ext. intros _ c _.
    apply strip_clause_idem.
Qed.

End SelectorFacts.

(** ** More on the action executor *)

Section MoreStepsFacts.
Import JS Guard Steps Traces MoreTraces Proto.

Lemma walk_defined page : (∀ l, defined page l = true) →
  ∀ rest seen, walk page seen rest = true.
Proof.
  intros Hd. induction rest as [|level rest IH]; intros seen; [done|].
  cbn [walk]. rewrite IH, andb_true_r. destruct seen; [done|apply Hd].
Qed.

Lemma continue_events page k' steps' (evs : list Event) :
  (let '(evs', out, k'') := carryOutSteps page k' steps' in (evs ++ evs', out, k''))
  = followed_by evs (carryOutSteps page k' steps').
Proof. unfold followed_by. by destruct (carryOutSteps page k' steps') as [[? ?] ?]. Qed.

(** On a page where every path is defined and every invocation resolves,
    a body of actions with proper names runs to its end: each action is
    invoked exactly once, in the order of the body, each followed by the
    pause. *)
Theorem carryOutSteps_all_resolve (page : Driver) (k : nat) (steps : list What) :
  (∀ step, step ∈ steps → includes inherited (action step) = false) →
  (∀ j, resolves page j = true) →
  (∀ l, defined page l = true) →
  carryOutSteps page k steps
  = (concat ((λ step, [plain_event step; ESleep]) <$> steps), Done, k + length steps).
Proof.
  intros _ Hr Hd. revert k.
  induction steps as [|step steps IH]; intros k.
  - cbn. by rewrite Nat.add_0_r.
  - cbn [carryOutSteps]. cbv zeta. rewrite !continue_events, !Hr.
    rewrite (walk_defined page Hd). cbn [negb].
    rewrite fmap_cons. cbn [concat length]. unfold plain_event at 1.
    rewrite IH. unfold followed_by. cbn [fst snd].
    replace (S k + length steps) with (k + S (length steps)) by lia.
    destruct (includes wawActions (action step)); [done|].
    destruct (String.eqb _ "waitForLoadState"); [done|].
    by destruct (String.eqb _ "click").
Qed.

(** For a [waitForLoadState] step: a first failure is answered by one more
    call, with ["domcontentloaded"]; when that call fails too, the body
    throws and none of the remaining actions is carried out. *)
Theorem waitForLoadState_retry
    (page : Driver) (k : nat) (step : What) (rest : list What) :
  includes wawActions (action step) = false →
  List.last (split "."%char (action step)) "" = "waitForLoadState" →
  walk page [] (removelast (split "."%char (action step))) = true →
  let path := removelast (split "."%char (action step)) in
  let plain := ECall path "waitForLoadState"
                 (passed "waitForLoadState" (of_args (args step))) in
  let again := ECall path "waitForLoadState" [AVal "domcontentloaded"] in
  (resolves page k = true →
   carryOutSteps page k (step :: rest)
   = followed_by [plain; ESleep] (carryOutSteps page (S k) rest)) ∧
  (resolves page k = false → resolves page (S k) = true →
   carryOutSteps page k (step :: rest)
   = followed_by [plain; again; ESleep] (carryOutSteps page (S (S k)) rest)) ∧
  (resolves page k = false → resolves page (S k) = false →
   carryOutSteps page k (step :: rest) = ([plain; again], Threw, S (S k))).
Proof.
  intros Hb Hm Hw path plain again.
  repeat split; intros; cbn [carryOutSteps]; cbv zeta;
    rewrite ?continue_events, Hb, Hm, Hw; simpl;
    repeat match goal with H : resolves _ _ = _ |- _ => rewrite H end;
    done.
Qed.

(** An action with a proper name that is neither a [click] nor a
    [waitForLoadState] is tried once: when its invocation throws, the body throws with it and the
    remaining actions are not carried out.  When the dotted path of an
    action leads through an undefined object, the body throws before any
    invocation. *)
Theorem failing_step_stops_body
    (page : Driver) (k : nat) (step : What) (rest : list What) :
  includes inherited (action step) = false →
  (includes wawActions (action step) = true ∨
   (List.last (split "."%char (action step)) "" ≠ "waitForLoadState" ∧
    List.last (split "."%char (action step)) "" ≠ "click")) →
  (walk page [] (removelast (split "."%char (action step))) = true →
   resolves page k = false →
   carryOutSteps page k (step :: rest) = ([plain_event step], Threw, S k)) ∧
  (includes wawActions (action step) = false →
   walk page [] (removelast (split "."%char (action step))) = false →
   carryOutSteps page k (step :: rest) = ([], Threw, k)).
Proof.
  intros _ Hkind. split.
  - intros Hw Hr. cbn [carryOutSteps]. cbv zeta. unfold plain_event.
    rewrite Hr, Hw. cbn [negb].
    destruct (includes wawActions (action step)); [done|].
    destruct Hkind as [[=]|[Hl Hc]].
    apply String.eqb_neq in Hl, Hc. by rewrite Hl, Hc.
  - intros Hb Hw. cbn [carryOutSteps]. cbv zeta. by rewrite Hb, Hw.
Qed.

Lemma passed_short path methodName a :
  short_input_call (ECall path methodName (passed methodName a)).
Proof.
  unfold short_input_call, passed. intros Hm.
  assert (String.eqb methodName "press" || String.eqb methodName "type" = true) as ->.
  { destruct Hm as [->| ->]; done. }
  destruct a as [|s|l]; cbn [length]; [lia|lia|].
  rewrite length_take. lia.
Qed.

(** Whatever the body and whatever the page answers, no call of [press] or
    [type] made by the executor carries more than two arguments. *)
Theorem press_type_at_most_two_args (page : Driver) (k : nat) (steps : list What) :
  Forall short_input_call (carryOutSteps page k steps).1.1.
Proof.
  revert k. induction steps as [|step steps IH]; intros k; [constructor|].
  cbn [carryOutSteps]. cbv zeta. rewrite !continue_events. unfold followed_by.
  repeat match goal with
         | |- context [if ?b then _ else _] => destruct b
         | |- context [match first_arg ?a with _ => _ end] => destruct (first_arg a)
         end;
    rewrite ?continue_events; unfold followed_by; cbn [fst snd];
    repeat first [ apply Forall_nil_2
                 | apply IH
                 | apply Forall_cons; split; [first [exact I|apply passed_short]|]
                 | apply Forall_app; split ].
Qed.

End MoreStepsFacts.

(** ** More on the main loop *)

Section MoreLoopFacts.
Import JS Guard Extract Steps Loop Traces MoreTraces.

Lemma done_refs_cons f fs :
  done_refs (f :: fs)
  = (match outcome f with
     | Done => fired f :: done_refs fs
     | Threw => done_refs fs
     end).
Proof. unfold done_refs. cbn [List.filter]. by destruct (outcome f). Qed.

(** Removing the element of index [i] from a list without repeated
    identities. *)
Lemma delete_NoDup_ref (l : list Tracked) i x :
  l !! i = Some x →
  NoDup (ref <$> l) →
  NoDup (ref <$> delete i l) ∧
  (ref x ∉ ref <$> delete i l) ∧
  (∀ t, t ∈ delete i l → t ∈ l).
Proof.
  intros Hx Hnd. split; [|split].
  - rewrite list_fmap_delete. eapply sublist_NoDup; [done|apply sublist_delete].
  - rewrite <- (take_drop_middle l i x Hx) in Hnd.
    rewrite fmap_app, fmap_cons in Hnd.
    apply NoDup_app in Hnd as (_ & Hdis & Hnd).
    apply NoDup_cons in Hnd as [Hnotin _].
    rewrite delete_take_drop, fmap_app, elem_of_app. intros [Hin|Hin]; [|done].
    apply (Hdis _ Hin). left.
  - intros t Ht. eapply elem_of_sublist; [done|apply sublist_delete].
Qed.

Lemma track_lookup (W : Workflow) t :
  t ∈ track W → W !! ref t = Some (pair t).
Proof.
  intros Ht. apply list_elem_of_lookup_1 in Ht as [i Hi].
  unfold track in Hi. rewrite list_lookup_imap in Hi.
  destruct (W !! i) as [step|] eqn:Hs; [|done].
  injection Hi as <-. done.
Qed.

Lemma track_NoDup (W : Workflow) : NoDup (ref <$> track W).
Proof.
  apply NoDup_alt. intros i j x Hi Hj.
  unfold track in *. rewrite list_lookup_fmap, list_lookup_imap in Hi, Hj.
  destruct (W !! i); [|done]. destruct (W !! j); [|done].
  cbn in Hi, Hj. congruence.
Qed.

(** What the loop keeps from a state in which the identities of the copy
    are pairwise distinct: the pairs whose bodies ran to completion are
    pairwise distinct and came from the copy. *)
Lemma iterate_done m script : ∀ st,
  NoDup (ref <$> workflowCopy st) →
  NoDup (done_refs (iterate m script st).1) ∧
  ∀ r, r ∈ done_refs (iterate m script st).1 → r ∈ ref <$> workflowCopy st.
Proof.
  induction script as [|o script IH]; intros st Hnd; cbn [iterate].
  { split; [constructor|]. intros r Hr. by apply elem_of_nil in Hr. }
  assert (Hnil : NoDup (done_refs []) ∧
                 ∀ r, r ∈ done_refs [] → r ∈ ref <$> workflowCopy st).
  { split; [constructor|]. intros r Hr. by apply elem_of_nil in Hr. }
  destruct (gone o); [done|]. destruct (load_fails o); [done|].
  destruct (state_fails o); [done|].
  destruct (getMatchingActionId_throws _ _ _); [done|].
  destruct (getMatchingActionId _ _ _) as [actionId|]; [|done].
  destruct (workflowCopy st !! actionId) as [action|] eqn:Hact; [|done].
  destruct (over_limit _ _); [done|].
  destruct (carryOutSteps _ _ _) as [[evs out] k'].
  destruct (delete_NoDup_ref _ _ _ Hact Hnd) as (Hnd' & Hnotin & Hsub).
  destruct out.
  - match goal with
    | |- context [iterate m script ?s] => destruct (IH s Hnd') as [IH1 IH2]
    end.
    destruct (iterate m script _) as [fs e]. cbn [fst] in *.
    rewrite done_refs_cons. cbn [outcome fired workflowCopy] in *.
    split.
    + apply NoDup_cons. split; [|done]. intros Hin. by apply Hnotin, IH2.
    + intros r [->|Hr]%elem_of_cons.
      * apply list_elem_of_fmap. exists action. split; [done|].
        by eapply list_elem_of_lookup_2.
      * apply IH2 in Hr. apply list_elem_of_fmap in Hr as (t & -> & Ht).
        apply list_elem_of_fmap. exists t. split; [done|]. by apply Hsub.
  - match goal with
    | |- context [iterate m script ?s] => destruct (IH s Hnd) as [IH1 IH2]
    end.
    destruct (iterate m script _) as [fs e]. cbn [fst] in *.
    rewrite done_refs_cons. cbn [outcome]. done.
Qed.

(** A pair whose body has run to completion is removed from the workflow
    copy and cannot fire again: in every run of the loop, the firings that
    completed belong to pairwise distinct pairs, so there are at most as
    many of them as the workflow has pairs. *)
Theorem completed_pairs_fire_once (m : Z) (workflow : Workflow) (script : list Obs) :
  NoDup (done_refs (runLoop m workflow script).1) ∧
  length (done_refs (runLoop m workflow script).1) ≤ length workflow.
Proof.
  unfold runLoop. cbv zeta.
  destruct (iterate_done m script
              {| workflowCopy := track (removeSpecialSelectors (deepCopy workflow));
                 usedActions := []; selectors := []; lastAction := None;
                 repeatCount := 0 |} (track_NoDup _)) as [Hnd Hsub].
  split; [done|].
  apply NoDup_submseteq in Hsub; [|done].
  apply submseteq_length in Hsub. cbn [workflowCopy] in Hsub.
  unfold track, removeSpecialSelectors, deepCopy in Hsub.
  by rewrite length_fmap, length_imap, !length_fmap in Hsub.
Qed.

(** The bookkeeping of the loop between two states. *)
Lemma iterate_books m (idf : nat → string) script : ∀ st0 fs st,
  NoDup (ref <$> workflowCopy st0) →
  (∀ t, t ∈ workflowCopy st0 → default "undefined" (id (pair t)) = idf (ref t)) →
  iterate m script st0 = (fs, Pending st) →
  usedActions st = usedActions st0 ++ (idf <$> done_refs fs) ∧
  length (workflowCopy st) + length (done_refs fs) = length (workflowCopy st0) ∧
  (∀ t, t ∈ workflowCopy st → t ∈ workflowCopy st0 ∧ ref t ∉ done_refs fs).
Proof.
  induction script as [|o script IH]; intros st0 fs st Hnd Hid; cbn [iterate].
  { intros [= <- <-]. cbn. rewrite app_nil_r. split; [done|]. split; [lia|].
    intros t Ht. split; [done|]. apply not_elem_of_nil. }
  destruct (gone o); [done|]. destruct (load_fails o); [done|].
  destruct (state_fails o); [done|].
  destruct (getMatchingActionId_throws _ _ _); [done|].
  destruct (getMatchingActionId _ _ _) as [actionId|]; [|done].
  destruct (workflowCopy st0 !! actionId) as [action|] eqn:Hact; [|done].
  destruct (over_limit _ _); [done|].
  destruct (carryOutSteps _ _ _) as [[evs out] k'].
  destruct (delete_NoDup_ref _ _ _ Hact Hnd) as (Hnd' & Hnotin & Hsub).
  assert (Hin : action ∈ workflowCopy st0) by (by eapply list_elem_of_lookup_2).
  destruct out.
  - match goal with
    | |- context [iterate m script ?s] =>
        specialize (IH s); destruct (iterate m script s) as [fs1 e1]
    end.
    intros [= <- ->]. cbn [workflowCopy usedActions] in IH.
    destruct (IH fs1 st Hnd') as (Hu & Hlen & Hrest); [by auto|done|].
    rewrite done_refs_cons. cbn [outcome fired].
    split; [|split].
    + rewrite Hu, fmap_cons, (Hid _ Hin), <- app_assoc. done.
    + rewrite length_delete in Hlen by eauto. cbn [length].
      apply lookup_lt_Some in Hact. lia.
    + intros t Ht. destruct (Hrest t Ht) as [Ht' Hnot]. split; [by apply Hsub|].
      intros [Heq|Hd]%elem_of_cons; [|done].
      apply Hnotin. rewrite <- Heq. apply list_elem_of_fmap. eauto.
  - match goal with
    | |- context [iterate m script ?s] =>
        specialize (IH s); destruct (iterate m script s) as [fs1 e1]
    end.
    intros [= <- ->]. cbn [workflowCopy usedActions] in IH.
    destruct (IH fs1 st Hnd Hid eq_refl) as (Hu & Hlen & Hrest).
    rewrite done_refs_cons. cbn [outcome]. done.
Qed.

(** While a run is going on, the loop has recorded in [usedActions] the id
    of each pair whose body ran to completion, once and in the order of the
    firings (["undefined"] for a pair without id), and nothing for a body
    that threw; the workflow copy has lost exactly those pairs. *)
Theorem runLoop_bookkeeping
    (m : Z) (workflow : Workflow) (script : list Obs)
    (fs : list Firing) (st : State) :
  runLoop m workflow script = (fs, Pending st) →
  usedActions st = recorded_id workflow <$> done_refs fs ∧
  length (workflowCopy st) + length (done_refs fs) = length workflow ∧
  (∀ t, t ∈ workflowCopy st → ref t ∉ done_refs fs).
Proof.
  unfold runLoop. cbv zeta. intros Hrun.
  eapply (iterate_books m (recorded_id workflow)) in Hrun as (Hu & Hlen & Hrest).
  - cbn [usedActions workflowCopy] in Hu, Hlen. split; [done|].
    unfold track, removeSpecialSelectors, deepCopy in Hlen.
    rewrite length_imap, !length_fmap in Hlen. split; [done|].
    intros t Ht. by apply Hrest.
  - apply track_NoDup.
  - cbn [workflowCopy]. intros t Ht. apply track_lookup in Ht.
    unfold recorded_id, removeSpecialSelectors, deepCopy in *.
    rewrite !list_lookup_fmap in Ht.
    destruct (workflow !! ref t) as [step|]; [|done].
    cbn in Ht. injection Ht as <-. done.
Qed.

End MoreLoopFacts.

(** ** More on the pagination engine *)

Section MorePaginationFacts.
Import JS Pagination.
Context {item : Type} (stringify : item → string).

Lemma filter_all {A} (l : list A) : List.filter (λ _, true) l = l.
Proof. induction l as [|x l IH]; [done|]. simpl. by rewrite IH. Qed.

Lemma filter_both {A} (f g : A → bool) l :
  List.filter f (List.filter g l) = List.filter (λ x, g x && f x) l.
Proof.
  induction l as [|x l IH]; [done|]. simpl.
  destruct (g x); simpl; [destruct (f x)|]; by rewrite IH.
Qed.

Lemma filter_none_of_itself (l : list string) :
  List.filter (λ x, negb (includes l x)) l = [].
Proof.
  assert (∀ k, (∀ x, x ∈ k → x ∈ l) → List.filter (λ x, negb (includes l x)) k = [])
    as Hk.
  { induction k as [|x k IH]; intros Hsub; [done|]. simpl.
    assert (includes l x = true) as ->.
    { apply includes_elem_of, Hsub. left. }
    simpl. apply IH. intros y Hy. apply Hsub. by right. }
  by apply Hk.
Qed.

Lemma findWorkingButton_from_spec selectors :
  ∀ updated (v : Vars (item := item)) sc found upd v' sc',
    findWorkingButton_from selectors updated v sc = Val (found, upd) v' sc' →
    ∃ failed,
      upd = List.filter (λ x, negb (includes failed x)) updated ∧
      ((found = None ∧ failed = selectors) ∨
       (∃ s post, found = Some s ∧ selectors = failed ++ s :: post)).
Proof.
  induction selectors as [|selector selectors IH];
    intros updated v sc found upd v' sc'; cbn [findWorkingButton_from].
  - intros [= <- <- <- <-]. exists []. split; [by rewrite filter_all|by left].
  - unfold bind at 1.
    destruct (attempt_selector MAX_RETRIES v sc) as [[|] v1 sc1| | |]; try done.
    + intros [= <- <- <- <-]. exists []. split; [by rewrite filter_all|].
      right. by exists selector, selectors.
    + intros Hrun. apply IH in Hrun as (failed & -> & Hcases).
      exists (selector :: failed). split.
      * rewrite filter_both. apply List.filter_ext. intros x.
        cbn. by rewrite negb_orb.
      * destruct Hcases as [[-> ->]|(s & post & -> & ->)]; [by left|].
        right. by exists s, post.
Qed.

(** [findWorkingButton] evicts exactly the selectors that were tried before
    the working one, in all their occurrences; when no selector works, no
    candidate is left for the rest of the run. *)
Theorem findWorkingButton_evicts
    (selectors : list string) (v : Vars (item := item)) (sc : list Resp)
    (found : option string) (upd : list string) (v' : Vars) (sc' : list Resp) :
  findWorkingButton selectors v sc = Val (found, upd) v' sc' →
  (found = None → upd = []) ∧
  (∀ s, found = Some s →
        ∃ failed post, selectors = failed ++ s :: post ∧
          upd = List.filter (λ x, negb (includes failed x)) selectors).
Proof.
  intros Hrun. apply findWorkingButton_from_spec in Hrun as (failed & -> & Hcases).
  destruct Hcases as [[-> ->]|(s & post & -> & ->)].
  - split; [intros _; apply filter_none_of_itself|done].
  - split; [done|]. intros s' [= <-]. by exists failed, post.
Qed.

Lemma forward_operation_catches (v : Vars (item := item)) sc :
  ∀ v' sc', forward_operation v sc ≠ Exc v' sc'.
Proof.
  intros v' sc'. unfold forward_operation, try_catch, bind, await, page_url, get, ret.
  destruct sc as [|[] [|[] sc]]; done.
Qed.

(** The fallback of [clickNext] is tried once: [retryOperation] retries only
    an operation that throws, and the [history.forward()] operation catches
    its own failures, so the wrapper never pauses and never calls it
    again. *)
Theorem forward_fallback_is_tried_once (n : nat) (v : Vars (item := item)) sc :
  retryOperation forward_operation n v sc = forward_operation v sc.
Proof.
  destruct n; cbn [retryOperation]; unfold try_catch at 1;
    destruct (forward_operation v sc) eqn:E; try done;
    by apply forward_operation_catches in E.
Qed.

Lemma fresh_complete results : ∀ seen (l : list item) new seen',
  (∀ key, key ∈ seen → key ∈ stringify <$> l) →
  fresh stringify results seen = (new, seen') →
  (∀ x, x ∈ results → stringify x ∈ stringify <$> (l ++ new)) ∧
  (∀ key, key ∈ seen' → key ∈ stringify <$> (l ++ new)).
Proof.
  induction results as [|x results IH]; intros seen l new seen' Hsub; simpl.
  - intros [= <- <-]. rewrite app_nil_r. split; [|done].
    intros x Hx. by apply elem_of_nil in Hx.
  - case_bool_decide as Hin.
    + intros Hf. destruct (IH _ _ _ _ Hsub Hf) as [Hall Hseen]. split; [|done].
      intros y [->|Hy]%elem_of_cons; [|by apply Hall].
      rewrite fmap_app, elem_of_app. left. by apply Hsub.
    + destruct (fresh stringify results ({[stringify x]} ∪ seen)) as [l0 s0] eqn:Hf.
      intros [= <- <-].
      replace (l ++ x :: l0) with ((l ++ [x]) ++ l0) by by rewrite <- app_assoc.
      destruct (IH ({[stringify x]} ∪ seen) (l ++ [x]) l0 s0) as [Hall Hseen];
        [|done|].
      * intros key [Hk|Hk]%elem_of_union; rewrite fmap_app, elem_of_app.
        -- apply elem_of_singleton in Hk. subst key. right. cbn. left.
        -- left. by apply Hsub.
      * split; [|done]. intros y [->|Hy]%elem_of_cons; [|by apply Hall].
        rewrite !fmap_app, !elem_of_app. left. right. cbn. left.
Qed.

(** A scrape loses nothing new: when every recorded key belongs to a
    result, then after [scrapeCurrentPage] the earlier results are still in
    place at the front, every item the page returned has its serialization
    among the results, and every recorded key still belongs to a result. *)
Theorem scrapeCurrentPage_keeps_new
    (v : Vars (item := item)) (items : list item) (sc : list Resp) :
  (∀ key, key ∈ scrapedItems v → key ∈ stringify <$> allResults v) →
  ∃ v', scrapeCurrentPage stringify v (RItems items :: sc) = Val () v' sc ∧
        allResults v `prefix_of` allResults v' ∧
        (∀ x, x ∈ items → stringify x ∈ stringify <$> allResults v') ∧
        (∀ key, key ∈ scrapedItems v' → key ∈ stringify <$> allResults v').
Proof.
  intros Hsub. unfold scrapeCurrentPage, bind, await_items, get, put.
  destruct (fresh stringify items (scrapedItems v)) as [new seen] eqn:Hf.
  eexists. split; [reflexivity|]. cbn [allResults scrapedItems].
  destruct (fresh_complete _ _ _ _ _ Hsub Hf) as [Hall Hseen].
  split; [by apply prefix_app_r|]. done.
Qed.

(** What one interaction does to the script. *)
Lemma await_cases (v : Vars (item := item)) sc :
  await v sc = Stuck ∨
  (∃ sc', sc = RThrow :: sc' ∧ await v sc = Exc v sc') ∨
  (∃ r sc', sc = r :: sc' ∧ await v sc = Val () v sc').
Proof. destruct sc as [|[] sc]; cbn; eauto 6. Qed.

Lemma await_num_cases (v : Vars (item := item)) sc :
  await_num v sc = Stuck ∨
  (∃ sc', sc = RThrow :: sc' ∧ await_num v sc = Exc v sc') ∨
  (∃ n sc', sc = RNum n :: sc' ∧ await_num v sc = Val n v sc').
Proof. destruct sc as [|[] sc]; cbn; eauto 6. Qed.

Lemma await_items_cases (v : Vars (item := item)) sc :
  await_items v sc = Stuck ∨
  (∃ sc', sc = RThrow :: sc' ∧ await_items v sc = Exc v sc') ∨
  (∃ l sc', sc = RItems l :: sc' ∧ await_items v sc = Val l v sc').
Proof. destruct sc as [|[] sc]; cbn; eauto 6. Qed.

(** One pass of a scroll strategy from empty results: it goes on or throws
    with the results still empty, or it returns the list of the extraction
    it has just made. *)
Lemma scroll_strategy_spec config fuel (v : Vars (item := item)) sc :
  ptype config = scrollDown ∨ ptype config = scrollUp →
  allResults v = [] →
  match strategy stringify config fuel v sc with
  | Val _ v' sc' => allResults v' = [] ∧ ∃ used, sc = used ++ sc'
  | Exc v' _ => allResults v' = []
  | Return r sc' => ∃ used, sc = used ++ RItems r :: sc'
  | Stuck => True
  end.
Proof.
  intros Ht Hempty. unfold strategy.
  destruct Ht as [-> | ->].
  - unfold bind at 1.
    destruct (await_cases v sc) as [->|[(sc1 & -> & ->)|(r1 & sc1 & -> & ->)]];
      [done|done|].
    unfold bind at 1.
    destruct (await_cases v sc1) as [->|[(sc2 & -> & ->)|(r2 & sc2 & -> & ->)]];
      [done|done|].
    unfold bind at 1.
    destruct (await_num_cases v sc2) as [->|[(sc3 & -> & ->)|(h & sc3 & -> & ->)]];
      [done|done|].
    unfold bind at 1, get at 1.
    destruct (Z.eqb h (previousHeight v)).
    + unfold bind at 1.
      destruct (await_items_cases v sc3)
        as [->|[(sc4 & -> & ->)|(l & sc4 & -> & ->)]]; [done|done|].
      cbn. rewrite Hempty. cbn. by exists [r1; r2; RNum h].
    + cbn. split; [done|]. by exists [r1; r2; RNum h].
  - unfold bind at 1.
    destruct (await_cases v sc) as [->|[(sc1 & -> & ->)|(r1 & sc1 & -> & ->)]];
      [done|done|].
    unfold bind at 1.
    destruct (await_cases v sc1) as [->|[(sc2 & -> & ->)|(r2 & sc2 & -> & ->)]];
      [done|done|].
    unfold bind at 1.
    destruct (await_num_cases v sc2) as [->|[(sc3 & -> & ->)|(h & sc3 & -> & ->)]];
      [done|done|].
    destruct (Z.eqb h 0).
    + unfold bind at 1.
      destruct (await_items_cases v sc3)
        as [->|[(sc4 & -> & ->)|(l & sc4 & -> & ->)]]; [done|done|].
      cbn. rewrite Hempty. cbn. by exists [r1; r2; RNum h].
    + cbn. split; [done|]. by exists [r1; r2; RNum h].
Qed.

Lemma scroll_paginate_spec config fuel :
  ptype config = scrollDown ∨ ptype config = scrollUp →
  ∀ (v : Vars (item := item)) sc,
    allResults v = [] →
    match paginate stringify config fuel v sc with
    | Val _ _ _ => False
    | Exc v' _ => allResults v' = []
    | Return r sc' => r = [] ∨ ∃ used, sc = used ++ RItems r :: sc'
    | Stuck => True
    end.
Proof.
  intros Ht. induction fuel as [|fuel IH]; intros v sc Hempty; [done|].
  cbn [paginate]. unfold bind at 1.
  pose proof (scroll_strategy_spec config fuel v sc Ht Hempty) as Hs.
  destruct (strategy stringify config fuel v sc) as [b v1 sc1|v1 sc1|r sc1|];
    [|done|by right|done].
  destruct Hs as [Hempty1 [used ->]].
  unfold bind at 1, checkLimit, bind, get. rewrite Hempty1.
  destruct (limit_reached (limit config) (length [])); cbn.
  - left. unfold slice0. destruct (Z.ltb _ _); apply take_nil.
  - specialize (IH v1 sc1 Hempty1).
    destruct (paginate stringify config fuel v1 sc1) as [| |r sc2|]; try done.
    destruct IH as [->|[used' ->]]; [by left|].
    right. exists (used ++ used'). by rewrite <- app_assoc.
Qed.

(** With [scrollDown] or [scrollUp] the list delivered is either empty, or
    exactly the list that the last interaction with the page, the final
    extraction, returned: the engine neither deduplicates it nor cuts it at
    the limit. *)
Theorem scroll_delivers_final_extraction
    (config : Config) (fuel : nat) (script : list Resp)
    (r : list item) (rest : list Resp) :
  ptype config = scrollDown ∨ ptype config = scrollUp →
  handlePagination stringify config fuel script = Some (r, rest) →
  r = [] ∨ ∃ used, script = used ++ RItems r :: rest.
Proof.
  intros Ht. unfold handlePagination.
  match goal with
  | |- context [paginate stringify config fuel ?v0 script] =>
      pose proof (scroll_paginate_spec config fuel Ht v0 script eq_refl) as Hp
  end.
  destruct (paginate _ _ _ _ _) as [|v sc|r' sc|]; try done.
  - intros [= <- <-]. by left.
  - by intros [= <- <-].
Qed.

End MorePaginationFacts.

(** ** The cumulative row of [scrapeSchema] *)

Section SchemaFacts.
Import JS Proto Schema MoreTraces.

Lemma merged_snoc cum e :
  merged (cum ++ [e])
  = (match e.2 with
     | Some value => assign (merged cum) e.1 value
     | None => merged cum
     end).
Proof. unfold merged. by rewrite fold_left_app. Qed.

Lemma keyExists_snoc cum e k :
  keyExists (cum ++ [e]) k = keyExists cum k || has_defined e k.
Proof. unfold keyExists. rewrite existsb_app. cbn. by rewrite orb_false_r. Qed.

(** A key with a proper name counts as present exactly when the row has a
    value for it. *)
Lemma keyExists_merged cum k :
  includes inherited k = false →
  keyExists cum k = true ↔ is_Some (merged cum !! k).
Proof.
  intros Hk. induction cum as [|e cum IH] using rev_ind.
  - cbn. rewrite lookup_empty. split; [done|]. by intros [? ?].
  - rewrite keyExists_snoc, merged_snoc, orb_true_iff, IH.
    unfold has_defined, assign. destruct e as [k' [value|]]; cbn [fst snd].
    + destruct (String.eqb_spec k' k) as [->|Hne].
      * rewrite (proper_not_proto _ Hk), lookup_insert_eq.
        split; [by eexists|]. intros _. right.
        apply bool_decide_eq_true. by eexists.
      * rewrite Hk. destruct (String.eqb k' "__proto__");
          [|rewrite lookup_insert_ne by done]; (split; [|by left]);
          by intros [?|?].
    + destruct (String.eqb k' k); [|rewrite Hk]; (split; [|by left]).
      * intros [?|Hb]; [done|]. apply bool_decide_eq_true in Hb. by destruct Hb.
      * by intros [?|?].
Qed.

Lemma absorb_entry_lookup cum k' value k :
  includes inherited k = false →
  merged (absorb_entry cum (k', value)) !! k
  = (match merged cum !! k with
     | Some x => Some x
     | None => if String.eqb k' k then value else None
     end).
Proof.
  intros Hk. unfold absorb_entry. cbn [fst].
  destruct (String.eqb_spec k' k) as [->|Hne].
  - destruct (keyExists cum k) eqn:Hex.
    + apply (keyExists_merged _ _ Hk) in Hex as [x Hx]. by rewrite Hx.
    + assert (merged cum !! k = None) as Hnone.
      { apply eq_None_not_Some. intros Hs.
        apply (keyExists_merged _ _ Hk) in Hs. congruence. }
      rewrite merged_snoc, Hnone. cbn [fst snd]. unfold assign.
      destruct value; [|done].
      by rewrite (proper_not_proto _ Hk), lookup_insert_eq.
  - assert (merged (if keyExists cum k' then cum else cum ++ [(k', value)]) !! k
            = merged cum !! k) as ->.
    { destruct (keyExists cum k'); [done|].
      rewrite merged_snoc. cbn [fst snd]. unfold assign.
      destruct value; [|done].
      destruct (String.eqb k' "__proto__"); [done|].
      by rewrite lookup_insert_ne. }
    by destruct (merged cum !! k).
Qed.

Lemma absorb_entries_lookup k es :
  includes inherited k = false →
  ∀ cum,
    merged (fold_left absorb_entry es cum) !! k
    = (match merged cum !! k with
       | Some x => Some x
       | None => first_defined k es
       end).
Proof.
  intros Hk.
  induction es as [|[k' value] es IH]; intros cum; cbn [fold_left first_defined].
  - by destruct (merged cum !! k).
  - rewrite IH, (absorb_entry_lookup _ _ _ _ Hk).
    destruct (merged cum !! k); [done|].
    destruct value; [|by destruct (String.eqb k' k)].
    by destruct (String.eqb k' k).
Qed.

Lemma first_defined_app k es1 es2 :
  first_defined k (es1 ++ es2)
  = (match first_defined k es1 with
     | Some x => Some x
     | None => first_defined k es2
     end).
Proof.
  induction es1 as [|[k' [value|]] es1 IH]; cbn [app first_defined]; [done| |done].
  by destruct (String.eqb k' k).
Qed.

Lemma absorb_lookup k rs :
  includes inherited k = false →
  ∀ cum,
    merged (absorb cum rs) !! k
    = (match merged cum !! k with
       | Some x => Some x
       | None => first_defined k (concat rs)
       end).
Proof.
  intros Hk. unfold absorb.
  induction rs as [|r rs IH]; intros cum; cbn [fold_left concat].
  - by destruct (merged cum !! k).
  - rewrite IH, (absorb_entries_lookup _ _ Hk), first_defined_app.
    by destruct (merged cum !! k).
Qed.

(** For a field with a proper name, the row that [scrapeSchema] hands to
    the callback keeps the value it already had; a field that had no value
    gets the first defined value scraped for it in this call. *)
Theorem scrapeSchema_first_defined_wins
    (cumulativeResults : Buffer) (scrapeResult : ScrapeResult) (key : string) :
  includes inherited key = false →
  (scrapeSchema cumulativeResults scrapeResult).2 !! key
  = (match merged cumulativeResults !! key with
     | Some value => Some value
     | None => first_defined key (concat (newResults scrapeResult))
     end).
Proof. intros Hk. unfold scrapeSchema. cbn [snd]. by apply absorb_lookup. Qed.

Lemma scrapeSchema_calls_lookup k calls :
  includes inherited k = false →
  ∀ cum,
    merged (fold_left (λ cum scrapeResult, (scrapeSchema cum scrapeResult).1) calls cum)
      !! k
    = (match merged cum !! k with
       | Some x => Some x
       | None => first_defined k (concat (concat (newResults <$> calls)))
       end).
Proof.
  intros Hk.
  induction calls as [|c calls IH]; intros cum; cbn [fold_left fmap list_fmap concat].
  - by destruct (merged cum !! k).
  - rewrite IH. unfold scrapeSchema. cbn [fst].
    rewrite (absorb_lookup _ _ Hk), concat_app, first_defined_app.
    destruct (merged cum !! k); [done|].
    by destruct (first_defined k (concat (newResults c))).
Qed.

(** Over a whole run, from the empty buffer: after any sequence of
    [scrapeSchema] actions, the row holds for each field with a proper name
    the first defined value that any of them scraped for it, so a later
    page can fill a missing field but never correct a field. *)
Theorem scrapeSchema_run_first_defined_wins
    (calls : list ScrapeResult) (key : string) :
  includes inherited key = false →
  merged (fold_left (λ cum scrapeResult, (scrapeSchema cum scrapeResult).1) calls [])
    !! key
  = first_defined key (concat (concat (newResults <$> calls))).
Proof.
  intros Hk. rewrite (scrapeSchema_calls_lookup _ _ Hk). cbn.
  by rewrite lookup_empty.
Qed.

Lemma merged_absent key cum :
  (∀ e, e ∈ cum → e.1 ≠ key) → merged cum !! key = None.
Proof.
  induction cum as [|e cum IH] using rev_ind; intros Hno; [by cbn|].
  rewrite merged_snoc. unfold assign.
  assert (merged cum !! key = None) as Hc.
  { apply IH. intros e' He'. apply Hno, elem_of_app. by left. }
  destruct (e.2); [|done]. destruct (String.eqb e.1 "__proto__"); [done|].
  rewrite lookup_insert_ne; [done|].
  apply Hno, elem_of_app. right. left.
Qed.

Lemma absorb_entry_shut key cum entry :
  includes inherited key = true →
  cum ≠ [] → (∀ e, e ∈ cum → e.1 ≠ key) →
  absorb_entry cum entry ≠ [] ∧ (∀ e, e ∈ absorb_entry cum entry → e.1 ≠ key).
Proof.
  intros Hk Hne Hno. unfold absorb_entry.
  destruct (keyExists cum entry.1) eqn:Hex; [done|].
  split; [by destruct cum|].
  intros e [He|He]%elem_of_app; [by apply Hno|].
  apply list_elem_of_singleton in He as ->. intros Heq.
  destruct cum as [|e0 cum]; [done|].
  unfold keyExists in Hex. cbn [existsb] in Hex.
  apply orb_false_iff in Hex as [Hex _]. unfold has_defined in Hex.
  rewrite Heq in Hex.
  destruct (String.eqb_spec e0.1 key) as [He0|_]; [|congruence].
  apply (Hno e0); [left|done].
Qed.

(** A field named like an inherited property is shut out: once the buffer
    holds an entry, and none under that name, [scrapeSchema] adds none
    under it, and the row has no value for it, whatever is scraped. *)
Theorem scrapeSchema_inherited_name_shut
    (cumulativeResults : Buffer) (scrapeResult : ScrapeResult) (key : string) :
  includes inherited key = true →
  cumulativeResults ≠ [] →
  (∀ e, e ∈ cumulativeResults → e.1 ≠ key) →
  (∀ e, e ∈ (scrapeSchema cumulativeResults scrapeResult).1 → e.1 ≠ key) ∧
  (scrapeSchema cumulativeResults scrapeResult).2 !! key = None.
Proof.
  intros Hk Hne Hno. unfold scrapeSchema. cbn [fst snd].
  assert (absorb cumulativeResults (newResults scrapeResult) ≠ [] ∧
          ∀ e, e ∈ absorb cumulativeResults (newResults scrapeResult) → e.1 ≠ key)
    as [_ Hall].
  { unfold absorb. revert cumulativeResults Hne Hno.
    induction (newResults scrapeResult) as [|r rs IH]; intros cum Hne Hno;
      cbn [fold_left]; [done|].
    apply IH; clear IH; revert cum Hne Hno;
      (induction r as [|entry r IHr]; intros cum Hne Hno; cbn [fold_left];
       [done|]);
      destruct (absorb_entry_shut key cum entry Hk Hne Hno) as [Hne' Hno'];
      by apply IHr. }
  split; [done|]. by apply merged_absent.
Qed.

End SchemaFacts.

(** ** The server side *)

Section ServerFacts.
Import Server.
Variable decrypt : string → option string.

Lemma clamp_limit_action checkLimit a :
  action (clamp_limit checkLimit a) = action a.
Proof. unfold clamp_limit. by repeat case_match. Qed.

Lemma decrypt_input_action a : action (decrypt_input decrypt a) = action a.
Proof. unfold decrypt_input. by repeat case_match. Qed.

Lemma clamp_limit_other checkLimit a :
  checkLimit = false ∨ action a ≠ "scrapeList" → clamp_limit checkLimit a = a.
Proof.
  intros Hc. unfold clamp_limit.
  destruct (String.eqb_spec (action a) "scrapeList") as [He|Hne]; [|done].
  destruct Hc as [->|Hc]; [done|by destruct Hc].
Qed.

Lemma decrypt_input_other a :
  action a ≠ "type" → action a ≠ "press" → decrypt_input decrypt a = a.
Proof.
  intros Ht Hp. unfold decrypt_input.
  destruct (String.eqb_spec (action a) "type"); [done|].
  by destruct (String.eqb_spec (action a) "press").
Qed.

(** Members of a processed workflow come from the members of the
    workflow. *)
Lemma processWorkflow_elem_of workflow checkLimit pair a :
  pair ∈ processWorkflow decrypt workflow checkLimit →
  a ∈ what pair →
  ∃ pair0 a0, pair0 ∈ workflow ∧ a0 ∈ what pair0 ∧
              a = decrypt_input decrypt (clamp_limit checkLimit a0).
Proof.
  unfold processWorkflow. intros (pair0 & -> & Hp)%list_elem_of_fmap. cbn.
  intros (a0 & -> & Ha)%list_elem_of_fmap. by exists pair0, a0.
Qed.

(** With the limit check on, in every [scrapeList] action of the processed
    workflow whose [args] is an array headed by a configuration object, a
    numeric [limit] of that object is at most five.  (When [args] is the
    configuration object itself, the limit is not looked at: see
    [processWorkflow_object_args_unclamped].) *)
Theorem processWorkflow_limit_capped
    (workflow : list Pair) (pair : Pair) (a : Action)
    (scrapeConfig : gmap string Json) (rest : list Json) (limit : Q) :
  pair ∈ processWorkflow decrypt workflow true →
  a ∈ what pair →
  action a = "scrapeList" →
  args a = Some (JArr (JObj scrapeConfig :: rest)) →
  scrapeConfig !! "limit" = Some (JNum limit) →
  Qle limit (inject_Z 5).
Proof.
  intros Hp Ha Hact Hargs Hlim.
  destruct (processWorkflow_elem_of _ _ _ _ Hp Ha) as (pair0 & a0 & _ & _ & ->).
  rewrite decrypt_input_action, clamp_limit_action in Hact.
  rewrite decrypt_input_other in Hargs
    by (rewrite clamp_limit_action, Hact; done).
  unfold clamp_limit in Hargs.
  destruct (String.eqb_spec (action a0) "scrapeList") as [_|Hne]; [|done].
  cbn [andb] in Hargs.
  destruct (args a0) as [[| | | |[|[| | | | |cfg0] rest0]|]|] eqn:Ha0;
    try (rewrite Ha0 in Hargs; congruence).
  destruct (cfg0 !! "limit") as [[| |n| | |]|] eqn:Hl0;
    try (rewrite Ha0 in Hargs; injection Hargs as <- <-; congruence).
  destruct (Qle_bool n (inject_Z 5)) eqn:Hle; cbn [negb] in Hargs.
  - rewrite Ha0 in Hargs. injection Hargs as <- <-.
    rewrite Hl0 in Hlim. injection Hlim as <-. by apply Qle_bool_iff.
  - cbn in Hargs. injection Hargs as <- <-.
    rewrite lookup_insert_eq in Hlim. injection Hlim as <-. apply Qle_refl.
Qed.

(** A [scrapeList] action whose [args] is the configuration object itself,
    not an array, goes through [processWorkflow] unchanged, whatever its
    limit. *)
Lemma processWorkflow_object_args_unclamped
    (checkLimit : bool) (a : Action) (scrapeConfig : gmap string Json) :
  action a = "scrapeList" →
  args a = Some (JObj scrapeConfig) →
  decrypt_input decrypt (clamp_limit checkLimit a) = a.
Proof.
  intros Hact Hargs.
  assert (clamp_limit checkLimit a = a) as ->.
  { unfold clamp_limit. rewrite Hargs. by destruct (_ && _). }
  apply decrypt_input_other; rewrite Hact; done.
Qed.

(** [processWorkflow] keeps the shape of the workflow: the pairs, their
    ids and guards, and the names of their actions stay as they are, and an
    action is changed only if it is a [type] or a [press], or, with the
    limit check on, a [scrapeList]. *)
Theorem processWorkflow_shape (workflow : list Pair) (checkLimit : bool) :
  Forall2
    (λ out pair,
       id out = id pair ∧ where_ out = where_ pair ∧
       Forall2
         (λ b a,
            action b = action a ∧
            (action a ≠ "type" → action a ≠ "press" →
             checkLimit = false ∨ action a ≠ "scrapeList" → b = a))
         (what out) (what pair))
    (processWorkflow decrypt workflow checkLimit) workflow.
Proof.
  unfold processWorkflow. apply Forall2_fmap_l, Forall_Forall2_diag, Forall_forall.
  intros pair _. cbn. split; [done|split; [done|]].
  apply Forall2_fmap_l, Forall_Forall2_diag, Forall_forall.
  intros a _. split.
  - by rewrite decrypt_input_action, clamp_limit_action.
  - intros Ht Hp Hc. rewrite clamp_limit_other by done.
    by apply decrypt_input_other.
Qed.

(** After [processWorkflow] the value of every [type] and [press] action
    that has one is a string: a value that is not a string, or that cannot
    be decrypted, has been replaced. *)
Theorem processWorkflow_inputs_are_strings
    (workflow : list Pair) (checkLimit : bool) (pair : Pair) (a : Action)
    (l : list Json) :
  pair ∈ processWorkflow decrypt workflow checkLimit →
  a ∈ what pair →
  action a = "type" ∨ action a = "press" →
  args a = Some (JArr l) →
  1 < length l →
  ∃ value, l !! 1 = Some (JStr value).
Proof.
  intros Hp Ha Hact Hargs Hlen.
  destruct (processWorkflow_elem_of _ _ _ _ Hp Ha) as (pair0 & a0 & _ & _ & ->).
  rewrite decrypt_input_action, clamp_limit_action in Hact.
  rewrite clamp_limit_other in Hargs
    by (right; destruct Hact as [-> | ->]; done).
  unfold decrypt_input in Hargs.
  assert (String.eqb (action a0) "type" || String.eqb (action a0) "press" = true)
    as He by (destruct Hact as [-> | ->]; reflexivity).
  rewrite He in Hargs.
  destruct (args a0) as [[| | | |l0|]|] eqn:Ha0;
    try (rewrite Ha0 in Hargs; congruence).
  destruct (Nat.ltb_spec 1 (length l0)) as [Hl0|Hl0].
  - destruct (l0 !! 1) as [[| | |encryptedValue| |]|]; cbn in Hargs;
      injection Hargs as <-; eexists;
      by rewrite list_lookup_insert_eq.
  - rewrite Ha0 in Hargs. injection Hargs as <-. lia.
Qed.

Lemma item_key_inj i j : item_key i = item_key j → i = j.
Proof. unfold item_key. cbn. intros [= H]. by apply (inj pretty). Qed.

Lemma reduce_items_lookup {A} (l : list A) : ∀ index reducedObject i,
  reduce_items l index reducedObject !! item_key i
  = (match reducedObject !! item_key i with
     | Some x => Some x
     | None => if Nat.leb index i then l !! (i - index) else None
     end).
Proof.
  induction l as [|item l IH]; intros index acc i; cbn [reduce_items].
  - destruct (acc !! item_key i); [done|]. by destruct (Nat.leb index i).
  - rewrite IH, lookup_union, lookup_singleton.
    destruct (decide (item_key index = item_key i)) as [He|Hne];
      (destruct (acc !! item_key i) as [x|]; [done|]).
    + apply item_key_inj in He as ->. cbn.
      rewrite Nat.leb_refl, Nat.sub_diag. done.
    + assert (index ≠ i) by congruence. cbn -[Nat.leb Nat.sub lookup].
      destruct (Nat.leb_spec (S index) i), (Nat.leb_spec index i); try lia.
      * replace (i - index) with (S (i - S index)) by lia. done.
      * done.
Qed.

Lemma reduce_items_keys {A} (l : list A) : ∀ index reducedObject k x,
  reduce_items l index reducedObject !! k = Some x →
  reducedObject !! k = Some x ∨
  ∃ i, k = item_key i ∧ index ≤ i < index + length l.
Proof.
  induction l as [|item l IH]; intros index acc k x; cbn [reduce_items length].
  - by left.
  - intros [Hk|(i & -> & Hi)]%IH.
    + apply lookup_union_Some_raw in Hk as [Hk|[_ Hk]]; [by left|].
      rewrite lookup_singleton in Hk. case_decide as He; [|done].
      right. exists index. split; [done|lia].
    + right. exists i. split; [done|lia].
Qed.

(** The binary output keeps every binary item, under the key of its
    position, and holds nothing else. *)
Theorem binaryOutput_keeps_all {A} (binaryData : list A) :
  (∀ i, binaryOutput binaryData !! item_key i = binaryData !! i) ∧
  (∀ k, is_Some (binaryOutput binaryData !! k) →
        ∃ i, k = item_key i ∧ i < length binaryData).
Proof.
  unfold binaryOutput. split.
  - intros i. rewrite reduce_items_lookup, lookup_empty. cbn.
    by rewrite Nat.sub_0_r.
  - intros k [x [Hk|(i & -> & Hi)]%reduce_items_keys]; [by rewrite lookup_empty in Hk|].
    exists i. split; [done|lia].
Qed.

Lemma lastArray_last {A} (serializableData : list A) :
  lastArray serializableData
  = (match last serializableData with
     | Some item => [item]
     | None => []
     end).
Proof.
  unfold lastArray. destruct serializableData as [|x [|y l]]; try done.
Qed.

(** The serializable output holds the data of the last serializable
    callback only, under [item-0]: what earlier callbacks delivered is not
    in it. *)
Theorem serializableOutput_keeps_last {A} (serializableData : list A) :
  serializableOutput serializableData !! item_key 0 = last serializableData ∧
  (∀ k, k ≠ item_key 0 → serializableOutput serializableData !! k = None).
Proof.
  unfold serializableOutput. rewrite lastArray_last. split.
  - rewrite reduce_items_lookup, lookup_empty. cbn.
    by destruct (last serializableData).
  - intros k Hk. apply eq_None_not_Some.
    intros [x [Hx|(i & -> & Hi)]%reduce_items_keys]; [by rewrite lookup_empty in Hx|].
    apply Hk. f_equal. destruct (last serializableData); cbn in Hi; lia.
Qed.

End ServerFacts.

(** ** Sample runs for the further properties *)

Section MoreWitnesses.
Import JS Guard Extract Steps Loop Pagination Traces MoreTraces Samples Proto.

Lemma carryOutSteps_all_resolve_witness :
  carryOutSteps (failing_first 0) 0 click_then_goto
  = (concat ((λ step, [plain_event step; ESleep]) <$> click_then_goto), Done,
     0 + length click_then_goto).
Proof.
  apply carryOutSteps_all_resolve; [|intros; reflexivity|intros; reflexivity].
  intros step [->|[->|Hs]%elem_of_cons]%elem_of_cons; [reflexivity|reflexivity|].
  by apply elem_of_nil in Hs.
Defined.

Lemma waitForLoadState_retry_witness :
  carryOutSteps (failing_first 1) 0
    [ {| action := "waitForLoadState"; args := ArgsNone |} ]
  = ([ECall [] "waitForLoadState" []; ECall [] "waitForLoadState" [AVal "domcontentloaded"];
      ESleep], Done, 2).
Proof.
  destruct (waitForLoadState_retry (failing_first 1) 0
              {| action := "waitForLoadState"; args := ArgsNone |} []
              eq_refl eq_refl eq_refl) as (_ & Hsecond & _).
  exact (Hsecond eq_refl eq_refl).
Defined.

Lemma failing_step_stops_body_witness :
  carryOutSteps (failing_first 1) 0
    [ {| action := "goto"; args := ArgsOne "https://example.com/2" |};
      {| action := "click"; args := ArgsList ["#next"] |} ]
  = ([ECall [] "goto" [AVal "https://example.com/2"]], Threw, 1).
Proof.
  destruct (failing_step_stops_body (failing_first 1) 0
              {| action := "goto"; args := ArgsOne "https://example.com/2" |}
              [ {| action := "click"; args := ArgsList ["#next"] |} ])
    as (Hthrows & _).
  - reflexivity.
  - right. split; vm_compute; discriminate.
  - exact (Hthrows eq_refl eq_refl).
Defined.

Lemma runLoop_bookkeeping_witness :
  let run := runLoop 3 two_pairs
               [ {| gone := false; load_fails := false; state_fails := false;
                    page := page0;
                    driver := failing_first 0 |} ] in
  ∃ st, run.2 = Pending st ∧
        usedActions st = recorded_id two_pairs <$> done_refs run.1 ∧
        length (workflowCopy st) + length (done_refs run.1) = length two_pairs ∧
        (∀ t, t ∈ workflowCopy st → ref t ∉ done_refs run.1).
Proof.
  eexists. split; [reflexivity|].
  apply (runLoop_bookkeeping 3 two_pairs
           [ {| gone := false; load_fails := false; state_fails := false;
                page := page0; driver := failing_first 0 |} ]).
  reflexivity.
Defined.

Lemma findWorkingButton_evicts_witness :
  ∃ failed post,
    [".a"; ".b"; ".a"] = failed ++ ".b" :: post ∧
    [".b"] = List.filter (λ x, negb (includes failed x)) [".a"; ".b"; ".a"].
Proof.
  apply (proj2 (findWorkingButton_evicts (item := string)
                  [".a"; ".b"; ".a"] (two_scraped 0)
                  [RThrow; ROk; RThrow; ROk; RThrow; ROk]
                  (Some ".b") [".b"] (two_scraped 0) [] eq_refl) ".b" eq_refl).
Defined.

Lemma scrapeCurrentPage_keeps_new_witness :
  ∃ v', scrapeCurrentPage string_key (two_scraped 0) [RItems ["b"; "c"]]
        = Val () v' [] ∧
        allResults (two_scraped 0) `prefix_of` allResults v' ∧
        (∀ x, x ∈ ["b"; "c"] → string_key x ∈ string_key <$> allResults v') ∧
        (∀ key, key ∈ scrapedItems v' → key ∈ string_key <$> allResults v').
Proof.
  apply (scrapeCurrentPage_keeps_new string_key (two_scraped 0) ["b"; "c"] []).
  intros key. cbn. rewrite !elem_of_union, !elem_of_singleton, !elem_of_cons.
  intros [->|[->|Hk]]; [by left|by right; left|]. by apply elem_of_empty in Hk.
Defined.

Lemma scroll_delivers_final_extraction_witness :
  ["a"; "b"] = [] ∨
  ∃ used, [ROk; ROk; RNum 0; RItems ["a"; "b"]] = used ++ RItems ["a"; "b"] :: [].
Proof.
  apply (scroll_delivers_final_extraction string_key
           {| limit := None; ptype := scrollDown; selector := "" |} 2
           [ROk; ROk; RNum 0; RItems ["a"; "b"]] ["a"; "b"] []).
  - by left.
  - reflexivity.
Defined.

End MoreWitnesses.

Section ServerWitnesses.
Import Server.

Lemma processWorkflow_limit_capped_witness :
  Qle (inject_Z 5) (inject_Z 5).
Proof.
  apply (processWorkflow_limit_capped (λ s, Some s)
           [ {| id := None; where_ := JNull;
                what := [ {| action := "scrapeList";
                             args := Some (JArr [JObj {["limit" := JNum (inject_Z 100)]}]) |} ] |} ]
           {| id := None; where_ := JNull;
              what := [ {| action := "scrapeList";
                           args := Some (JArr [JObj (<["limit" := JNum (inject_Z 5)]>
                                                       {["limit" := JNum (inject_Z 100)]})]) |} ] |}
           {| action := "scrapeList";
              args := Some (JArr [JObj (<["limit" := JNum (inject_Z 5)]>
                                          {["limit" := JNum (inject_Z 100)]})]) |}
           (<["limit" := JNum (inject_Z 5)]> {["limit" := JNum (inject_Z 100)]}) []).
  - vm_compute. left.
  - left.
  - reflexivity.
  - reflexivity.
  - vm_compute. reflexivity.
Defined.

Lemma processWorkflow_inputs_are_strings_witness :
  ∃ value, [JStr "#secret"; JStr ""] !! 1 = Some (JStr value).
Proof.
  apply (processWorkflow_inputs_are_strings (λ _, None)
           [ {| id := Some "login"; where_ := JNull;
                what := [ {| action := "type";
                             args := Some (JArr [JStr "#secret"; JStr "8f3a"]) |} ] |} ]
           false
           {| id := Some "login"; where_ := JNull;
              what := [ {| action := "type";
                           args := Some (JArr [JStr "#secret"; JStr ""]) |} ] |}
           {| action := "type"; args := Some (JArr [JStr "#secret"; JStr ""]) |}).
  - left.
  - left.
  - by left.
  - reflexivity.
  - cbn. lia.
Defined.

End ServerWitnesses.

Section SchemaWitnesses.
Import JS Proto Schema MoreTraces.

Lemma scrapeSchema_first_defined_wins_witness :
  (scrapeSchema [("title", Some "A")]
     (One [("title", Some "B"); ("price", None); ("price", Some "3")])).2 !! "price"
  = Some "3".
Proof.
  exact (scrapeSchema_first_defined_wins [("title", Some "A")]
           (One [("title", Some "B"); ("price", None); ("price", Some "3")])
           "price" eq_refl).
Defined.

Lemma scrapeSchema_run_first_defined_wins_witness :
  merged (fold_left (λ cum scrapeResult, (scrapeSchema cum scrapeResult).1)
            [One [("title", None); ("price", Some "3")];
             Many [[("title", Some "A")]; [("title", Some "B"); ("price", Some "4")]]]
            [])
    !! "title"
  = Some "A".
Proof.
  exact (scrapeSchema_run_first_defined_wins
           [One [("title", None); ("price", Some "3")];
            Many [[("title", Some "A")]; [("title", Some "B"); ("price", Some "4")]]]
           "title" eq_refl).
Defined.

Lemma scrapeSchema_inherited_name_shut_witness :
  (scrapeSchema [("title", Some "A")] (One [("constructor", Some "X")])).2
    !! "constructor"
  = None.
Proof.
  apply (scrapeSchema_inherited_name_shut [("title", Some "A")]
           (One [("constructor", Some "X")]) "constructor").
  - reflexivity.
  - discriminate.
  - intros e He. apply list_elem_of_singleton in He as ->. discriminate.
Defined.

End SchemaWitnesses.
